(** * Keba charger: the UDP exchange [client] and the charger operations

    Shallow embedding of the Keba charger of package [charger]: the method
    [client] and the operations [Status], [Enabled], [Enable], [MaxCurrent].
    Line numbers refer to the source file that declares [type Keba].

    [client] runs two goroutines, the supervising call and the background
    send/receive unit, which share the dialed UDP socket and a channel with
    one slot.  The embedding is an interleaving semantics: a state holds the
    program counter of each goroutine, the socket, the channel, the context's
    [Done] flag, the reply buffer and the history of events; [step] executes
    one action of the actor that the scheduler picks, [run] folds a schedule.
    What the program does not decide is a [World] of oracles: address
    resolution, the socket calls of the operating system, the clock, the
    peer's reply, and the reason for which the context ends.  The caller's
    reader is a finite list of chunks.

    The last part goes beyond the operations: it relates [client] to the
    exchange read in sequence, shows that both goroutines come to an end,
    and follows a type name of the configuration through [NewFromConfig]
    of the packages [charger] and [vehicle]. *)

From Stdlib Require Import ZArith List String Bool Lia.
Import ListNotations.

Local Open Scope string_scope.
Local Open Scope list_scope.
Local Open Scope Z_scope.

(** ** Go values *)

Definition bytes := list Byte.byte.

Definition len {A} (l : list A) : Z := Z.of_nat (List.length l).

(** [const ( udpBufferSize = 1024; updTimeout = time.Second )];
    a [time.Duration] counts nanoseconds. *)
Definition Second : Z := 1000000000.
Definition udpBufferSize : Z := 1024.
Definition updTimeout : Z := Second.

(** [make([]byte, n)] *)
Definition make (n : Z) : bytes := repeat Byte.x00 (Z.to_nat n).

Arguments make : simpl never.

(** Why an operation of package [net] failed. *)
Inductive Cause : Type :=
| ErrClosed                (* use of closed network connection *)
| ErrTimeout               (* i/o timeout: the read deadline passed *)
| Errno (code : Z).        (* an error of the operating system *)

(** Non-nil values of Go's [error] that can flow through [client].
    [errors.New s] is [errorString s]; package [net] reports [*net.AddrError]
    / [*net.DNSError] from address resolution and [*net.OpError] from socket
    operations; [context.DeadlineExceeded] has a type of its own. *)
Inductive error : Type :=
| errorString (s : string)
| AddrError (msg : string)
| OpError (op : string) (c : Cause)
| deadlineExceededError.

(** A Go [error] value: [None] is [nil]. *)
Definition goerror := option error.

Definition errors_New (s : string) : error := errorString s.

Definition ErrShortWrite : error := errors_New "short write".

(** [ctx.Err()] once [ctx.Done()] is closed. *)
Inductive ctxReason : Type := Canceled | DeadlineExceeded.

Definition ctx_Err (r : ctxReason) : error :=
  match r with
  | Canceled => errors_New "context canceled"
  | DeadlineExceeded => deadlineExceededError
  end.

Record UDPAddr : Type := { IP : string; Port : Z }.

(** An [io.Reader] with a finite content: the non-final [Read] calls deliver
    [chunks] in order, the final one reports [io.EOF] ([final = None]) or the
    reader's own error.  Every [Read] returns: a reader that waits for ever
    has no value here, so what is said about the end of [io.Copy] is said of
    readers that deliver their content. *)
Record Reader : Type := { chunks : list bytes; final : goerror }.

(** The dialed socket [*net.UDPConn]. *)
Record UDPConn : Type := {
  remote : UDPAddr;
  rdeadline : option Z;
  closed : bool
}.

(** ** The world outside the program *)

Record World : Type := {
  (* net.ResolveUDPAddr("udp", address) *)
  ResolveUDPAddr : string -> UDPAddr + string;
  (* net.DialUDP("udp", nil, raddr): [Some errno] when the socket cannot be made *)
  DialUDP : UDPAddr -> option Z;
  (* what write(2) does with one datagram on the open socket, after [sent]
     bytes have gone out on it: the count written and the failure *)
  sys_write : forall (sent : Z), bytes -> Z * option Z;
  (* time.Now() when the deadline is computed *)
  Now : Z;
  (* failure of setting the deadline on the open socket *)
  sys_setdeadline : option Z;
  (* the datagram the peer sends back, with its time of arrival *)
  incoming : option (Z * bytes);
  (* failure of recvfrom(2) on the open socket *)
  sys_read : option Z;
  (* why the context is done, when it is *)
  reason : ctxReason
}.

(** ** Socket operations *)

(** [conn.Write(b)] when [sent] bytes have been written on the socket
    before. *)
Definition conn_Write (w : World) (c : UDPConn) (sent : Z) (b : bytes)
  : Z * goerror :=
  if closed c then (0, Some (OpError "write" ErrClosed))
  else match sys_write w sent b with
       | (n, Some e) => (n, Some (OpError "write" (Errno e)))
       | (n, None) => (n, None)
       end.

Definition conn_SetReadDeadline (w : World) (c : UDPConn) (t : Z)
  : UDPConn * goerror :=
  if closed c then (c, Some (OpError "set" ErrClosed))
  else match sys_setdeadline w with
       | Some e => (c, Some (OpError "set" (Errno e)))
       | None => ({| remote := remote c; rdeadline := Some t; closed := false |}, None)
       end.

(** Receiving a datagram [d] into [buffer], as recvfrom(2) does on a
    datagram socket: the first [length buffer] bytes of [d] are stored, the
    rest of the datagram is dropped, and the count is the number of bytes
    stored. *)
Definition fill (buffer d : bytes) : bytes * Z :=
  let got := firstn (List.length buffer) d in
  (got ++ skipn (List.length got) buffer, len got).

(** [conn.ReadFrom(buffer)]; [None]: the call blocks for ever (no datagram
    and no deadline).  The socket is connected, so the sender is the peer. *)
Definition conn_ReadFrom (w : World) (c : UDPConn) (buffer : bytes)
  : option (bytes * Z * UDPAddr + error) :=
  if closed c then Some (inr (OpError "read" ErrClosed))
  else match sys_read w with
       | Some e => Some (inr (OpError "read" (Errno e)))
       | None =>
         match incoming w, rdeadline c with
         | Some (t, d), Some dl =>
           if t <? dl then let '(b, n) := fill buffer d in Some (inl (b, n, remote c))
           else Some (inr (OpError "read" ErrTimeout))
         | Some (t, d), None =>
           let '(b, n) := fill buffer d in Some (inl (b, n, remote c))
         | None, Some dl => Some (inr (OpError "read" ErrTimeout))
         | None, None => None
         end
       end.

Definition conn_Close (c : UDPConn) : UDPConn :=
  {| remote := remote c; rdeadline := rdeadline c; closed := true |}.

(** ** Events, newest first in the history

    One event for each call that [client] and its goroutine make: the socket
    operations with their results, the return of [io.Copy], the three lines
    of the trace log, the send and the receive on [doneChan], the deferred
    close and the return. *)

Inductive Event : Type :=
| EvResolve (address : string)
| EvDial (raddr : UDPAddr)
| EvGo
| EvWrite (b : bytes) (n : Z) (err : goerror)
| EvCopied (n : Z) (err : goerror)
| EvLogWritten (n : Z)
| EvSetReadDeadline (t : Z) (err : goerror)
| EvReadFrom (n : Z) (err : goerror)
| EvLogReceived (n : Z) (addr : UDPAddr)
| EvSend (v : goerror)
| EvRecv (v : goerror)
| EvLogCancelled
| EvClose
| EvReturn (v : goerror).

(** ** The two goroutines *)

(** Where the supervising call stands. *)
Inductive SupPC : Type :=
| SResolve                    (* line 50 *)
| SDial (raddr : UDPAddr)     (* line 60 *)
| SGo                         (* lines 67-71: defer, make(chan error, 1), go *)
| SSelect                     (* line 107 *)
| SDefer (err : goerror)      (* line 114: the deferred conn.Close() *)
| SReturned (err : goerror).

(** Where the background unit stands. *)
Inductive BgPC : Type :=
| BIdle                                   (* not started *)
| BCopy (rest : list bytes) (written : Z) (* line 76, inside io.Copy *)
| BArm (n : Z)                            (* lines 82-90 *)
| BRead (buffer : bytes)                  (* line 96 *)
| BSend (v : goerror)                     (* lines 78, 92, 98, 104 *)
| BDone.

(** [doneChan := make(chan error, 1)] *)
Inductive Chan : Type :=
| NoChan
| Empty
| Full (v : goerror).

Record State : Type := {
  sup : SupPC;
  bg : BgPC;
  conn : option UDPConn;
  doneChan : Chan;
  done : bool;              (* ctx.Done() is closed *)
  buffer : bytes;           (* the reply buffer after the receive *)
  trace : list Event
}.

Definition init : State :=
  {| sup := SResolve; bg := BIdle; conn := None; doneChan := NoChan;
     done := false; buffer := []; trace := [] |}.

(** Who moves next; [coin] is the choice of [select] when both cases are
    ready (Go picks one of the ready cases at random). *)
Inductive Actor : Type :=
| Supervisor (coin : bool)
| Background
| CancelSignal.

Definition set_sup (st : State) (pc : SupPC) (evs : list Event) : State :=
  {| sup := pc; bg := bg st; conn := conn st; doneChan := doneChan st;
     done := done st; buffer := buffer st; trace := evs ++ trace st |}.

Definition set_bg (st : State) (pc : BgPC) (evs : list Event) : State :=
  {| sup := sup st; bg := pc; conn := conn st; doneChan := doneChan st;
     done := done st; buffer := buffer st; trace := evs ++ trace st |}.

Section Client.

Variable w : World.
Variable address : string.
Variable reader : Reader.

(** One action of the supervising call, lines 50-67 and 107-114.  [select]
    waits until the context is done or the channel holds a value; the
    deferred [conn.Close()] runs between [select] and the return. *)
Definition step_sup (coin : bool) (st : State) : option State :=
  match sup st with
  | SResolve =>
    match ResolveUDPAddr w address with
    | inr msg =>
      let e := Some (AddrError msg) in
      Some (set_sup st (SReturned e) [EvReturn e; EvResolve address])
    | inl raddr => Some (set_sup st (SDial raddr) [EvResolve address])
    end
  | SDial raddr =>
    match DialUDP w raddr with
    | Some errno =>
      let e := Some (OpError "dial" (Errno errno)) in
      Some (set_sup st (SReturned e) [EvReturn e; EvDial raddr])
    | None =>
      Some {| sup := SGo; bg := bg st;
              conn := Some {| remote := raddr; rdeadline := None; closed := false |};
              doneChan := doneChan st; done := done st; buffer := buffer st;
              trace := EvDial raddr :: trace st |}
    end
  | SGo =>
    Some {| sup := SSelect; bg := BCopy (chunks reader) 0;
            conn := conn st; doneChan := Empty; done := done st;
            buffer := buffer st; trace := EvGo :: trace st |}
  | SSelect =>
    let cancelled :=
      set_sup st (SDefer (Some (ctx_Err (reason w)))) [EvLogCancelled] in
    let received v :=
      {| sup := SDefer v; bg := bg st; conn := conn st; doneChan := Empty;
         done := done st; buffer := buffer st; trace := EvRecv v :: trace st |} in
    match done st, doneChan st with
    | true, Full v => Some (if coin then received v else cancelled)
    | true, _ => Some cancelled
    | false, Full v => Some (received v)
    | false, _ => None
    end
  | SDefer err =>
    Some {| sup := SReturned err; bg := bg st;
            conn := option_map conn_Close (conn st);
            doneChan := doneChan st; done := done st; buffer := buffer st;
            trace := EvReturn err :: EvClose :: trace st |}
  | SReturned _ => None
  end.

(** One action of the background unit, lines 71-105.  [io.Copy(conn, reader)]
    is the loop of package [io]: read a chunk; if it has bytes, write it, add
    the count written, stop on a write error or on a short write; stop when
    the reader reports [io.EOF] (no error) or an error of its own.  A send on
    the channel waits for a free slot. *)
Definition step_bg (st : State) : option State :=
  match bg st, conn st with
  | BCopy (b :: rest) written, Some c =>
    if len b =? 0 then Some (set_bg st (BCopy rest written) [])
    else
      let '(nw, ew) := conn_Write w c written b in
      let written' := if 0 <? nw then written + nw else written in
      match ew with
      | Some e =>
        Some (set_bg st (BSend (Some e))
                [EvCopied written' (Some e); EvWrite b nw ew])
      | None =>
        if len b =? nw then Some (set_bg st (BCopy rest written') [EvWrite b nw ew])
        else Some (set_bg st (BSend (Some ErrShortWrite))
                     [EvCopied written' (Some ErrShortWrite); EvWrite b nw ew])
      end
  | BCopy [] written, Some c =>
    match final reader with
    | Some e => Some (set_bg st (BSend (Some e)) [EvCopied written (Some e)])
    | None => Some (set_bg st (BArm written) [EvCopied written None])
    end
  | BArm n, Some c =>
    let buffer := make udpBufferSize in
    let deadline := Now w + updTimeout in
    let '(c', err) := conn_SetReadDeadline w c deadline in
    let evs := [EvSetReadDeadline deadline err; EvLogWritten n] in
    match err with
    | Some e =>
      Some {| sup := sup st; bg := BSend (Some e); conn := Some c';
              doneChan := doneChan st; done := done st; buffer := buffer;
              trace := evs ++ trace st |}
    | None =>
      Some {| sup := sup st; bg := BRead buffer; conn := Some c';
              doneChan := doneChan st; done := done st; buffer := buffer;
              trace := evs ++ trace st |}
    end
  | BRead buf, Some c =>
    match conn_ReadFrom w c buf with
    | None => None
    | Some (inr e) =>
      Some (set_bg st (BSend (Some e)) [EvReadFrom 0 (Some e)])
    | Some (inl (buf', nRead, addr)) =>
      Some {| sup := sup st; bg := BSend None; conn := conn st;
              doneChan := doneChan st; done := done st; buffer := buf';
              trace := EvLogReceived nRead addr :: EvReadFrom nRead None :: trace st |}
    end
  | BSend v, _ =>
    match doneChan st with
    | Empty =>
      Some {| sup := sup st; bg := BDone; conn := conn st; doneChan := Full v;
              done := done st; buffer := buffer st; trace := EvSend v :: trace st |}
    | _ => None
    end
  | _, _ => None
  end.

(** The context's [Done] channel is closed from outside. *)
Definition step_cancel (st : State) : option State :=
  Some {| sup := sup st; bg := bg st; conn := conn st; doneChan := doneChan st;
          done := true; buffer := buffer st; trace := trace st |}.

Definition step (a : Actor) (st : State) : option State :=
  match a with
  | Supervisor coin => step_sup coin st
  | Background => step_bg st
  | CancelSignal => step_cancel st
  end.

(** An actor that cannot move leaves the state as it is. *)
Definition exec (st : State) (a : Actor) : State :=
  match step a st with
  | Some st' => st'
  | None => st
  end.

Definition run (sched : list Actor) (st : State) : State :=
  fold_left exec sched st.

(** What the caller has got back, if the call has returned. *)
Definition result (st : State) : option goerror :=
  match sup st with
  | SReturned err => Some err
  | _ => None
  end.

End Client.

(** ** The charger operations, lines 117-135 *)

Definition ChargeStatus := string.

Module Keba.

(** [type Keba struct { log *api.Logger; conn string }]; the logger is
    known by its name. *)
Record t : Type := { log : string; conn : string }.

Definition NewKeba (conn : string) : t := {| log := "keba"; conn := conn |}.

Definition Status (m : t) : ChargeStatus * goerror :=
  ("A", Some (errors_New "not implemented")).

Definition Enabled (m : t) : bool * goerror :=
  (false, Some (errors_New "not implemented")).

Definition Enable (m : t) (enable : bool) : goerror :=
  Some (errors_New "not implemented").

Definition MaxCurrent (m : t) (current : Z) : goerror :=
  Some (errors_New "not implemented").

End Keba.

(** ** Reading the history *)

Fixpoint count (p : Event -> bool) (tr : list Event) : nat :=
  match tr with
  | [] => 0%nat
  | e :: past => ((if p e then 1 else 0) + count p past)%nat
  end.

Definition is_write (e : Event) : bool :=
  match e with EvWrite _ _ _ => true | _ => false end.
Definition is_copied (e : Event) : bool :=
  match e with EvCopied _ _ => true | _ => false end.
Definition is_arm (e : Event) : bool :=
  match e with EvSetReadDeadline _ _ => true | _ => false end.
Definition is_read (e : Event) : bool :=
  match e with EvReadFrom _ _ => true | _ => false end.
Definition is_send (e : Event) : bool :=
  match e with EvSend _ => true | _ => false end.
Definition is_recv (e : Event) : bool :=
  match e with EvRecv _ => true | _ => false end.
Definition is_cancelled (e : Event) : bool :=
  match e with EvLogCancelled => true | _ => false end.
Definition is_close (e : Event) : bool :=
  match e with EvClose => true | _ => false end.
Definition is_return (e : Event) : bool :=
  match e with EvReturn _ => true | _ => false end.

(** The events of the background unit. *)
Definition is_bg (e : Event) : bool :=
  match e with
  | EvWrite _ _ _ | EvCopied _ _ | EvLogWritten _ | EvSetReadDeadline _ _
  | EvReadFrom _ _ | EvLogReceived _ _ | EvSend _ => true
  | _ => false
  end.

(** The background unit's uses of the socket. *)
Definition uses_conn (e : Event) : bool :=
  match e with
  | EvWrite _ _ _ | EvSetReadDeadline _ _ | EvReadFrom _ _ => true
  | _ => false
  end.

(** The background unit has run to its end. *)
Definition finished (st : State) : bool :=
  match bg st with BDone => true | _ => false end.

(** The reply buffer as it is allocated. *)
Definition zeroes : bytes := make udpBufferSize.

(** An operation [op] of package [net] ends without error or with its own
    [*net.OpError]. *)
Definition net_error (op : string) (err : goerror) : Prop :=
  err = None \/ exists c, err = Some (OpError op c).

Section Invariant.

Variable w : World.
Variable address : string.
Variable reader : Reader.

Definition deadline : Z := Now w + updTimeout.

(** What the background unit has seen when it is about to send [v]. *)
Definition sent_for (v : goerror) (tr : list Event) : Prop :=
  match v with
  | None => exists n a, In (EvLogReceived n a) tr
  | Some e =>
    (exists n, In (EvCopied n (Some e)) tr /\ count is_arm tr = 0%nat /\ count is_read tr = 0%nat)
    \/ (In (EvSetReadDeadline deadline (Some e)) tr /\ count is_read tr = 0%nat)
    \/ (exists n, In (EvReadFrom n (Some e)) tr)
  end.

(** Where the value that the call returns comes from. *)
Definition origin (v : goerror) (past : list Event) : Prop :=
  (exists msg, ResolveUDPAddr w address = inr msg /\ v = Some (AddrError msg)
               /\ past = [EvResolve address])
  \/ (exists raddr errno, DialUDP w raddr = Some errno
               /\ v = Some (OpError "dial" (Errno errno))
               /\ past = [EvDial raddr; EvResolve address])
  \/ (In EvClose past /\ In (EvRecv v) past /\ count is_cancelled past = 0%nat)
  \/ (In EvClose past /\ In EvLogCancelled past /\ count is_recv past = 0%nat
      /\ v = Some (ctx_Err (reason w))).

(** The history of a call that failed before it had a socket. *)
Definition early (v : goerror) (tr : list Event) : Prop :=
  (exists msg, ResolveUDPAddr w address = inr msg /\ v = Some (AddrError msg)
               /\ tr = [EvReturn v; EvResolve address])
  \/ (exists raddr errno,
         ResolveUDPAddr w address = inl raddr /\ DialUDP w raddr = Some errno
         /\ v = Some (OpError "dial" (Errno errno))
         /\ tr = [EvReturn v; EvDial raddr; EvResolve address]).

(** On a socket that the call has closed, an operation [op] fails with
    [net.ErrClosed]. *)
Definition closed_fails (op : string) (err : goerror) (past : list Event) : Prop :=
  (1 <= count is_close past)%nat -> err = Some (OpError op ErrClosed).

(** What must have happened before an event can happen. *)
Definition pre (e : Event) (past : list Event) : Prop :=
  match e with
  | EvResolve a => a = address /\ past = []
  | EvDial raddr =>
    ResolveUDPAddr w address = inl raddr /\ past = [EvResolve address]
  | EvGo =>
    exists raddr, past = [EvDial raddr; EvResolve address] /\ DialUDP w raddr = None
  | EvWrite b n err =>
    count is_copied past = 0%nat /\ count is_send past = 0%nat /\ In EvGo past
    /\ net_error "write" err /\ closed_fails "write" err past
  | EvCopied n err =>
    count is_copied past = 0%nat /\ In EvGo past
    /\ (err = final reader \/ err = Some ErrShortWrite \/ net_error "write" err)
  | EvLogWritten n => In (EvCopied n None) past /\ count is_arm past = 0%nat
  | EvSetReadDeadline t err =>
    t = deadline /\ (exists n, In (EvCopied n None) past)
    /\ count is_arm past = 0%nat /\ count is_read past = 0%nat
    /\ count is_send past = 0%nat /\ net_error "set" err
    /\ closed_fails "set" err past
  | EvReadFrom n err =>
    In (EvSetReadDeadline deadline None) past /\ count is_read past = 0%nat
    /\ count is_send past = 0%nat /\ net_error "read" err
    /\ closed_fails "read" err past
    /\ (err = None ->
        exists t d, incoming w = Some (t, d) /\ t < deadline
                    /\ n = Z.min (len d) udpBufferSize)
  | EvLogReceived n addr =>
    In (EvReadFrom n None) past /\ ResolveUDPAddr w address = inl addr
  | EvSend v => count is_send past = 0%nat /\ sent_for v past
  | EvRecv v =>
    In (EvSend v) past /\ count is_recv past = 0%nat
    /\ count is_cancelled past = 0%nat
  | EvLogCancelled =>
    In EvGo past /\ count is_recv past = 0%nat /\ count is_cancelled past = 0%nat
  | EvClose => In EvGo past /\ count is_close past = 0%nat
  | EvReturn v => count is_return past = 0%nat /\ origin v past
  end.

Fixpoint justified (tr : list Event) : Prop :=
  match tr with
  | [] => True
  | e :: past => pre e past /\ justified past
  end.

(** The background unit exists: the socket is the one dialed. *)
Definition spawned (st : State) : Prop :=
  In EvGo (trace st)
  /\ exists c, conn st = Some c /\ ResolveUDPAddr w address = inl (remote c).

(** ... and has not sent yet. *)
Definition running (st : State) : Prop :=
  spawned st /\ doneChan st = Empty
  /\ count is_send (trace st) = 0%nat /\ count is_recv (trace st) = 0%nat.

Definition bg_facts (st : State) : Prop :=
  let tr := trace st in
  match bg st with
  | BIdle => count is_bg tr = 0%nat /\ doneChan st = NoChan
  | BCopy rest written =>
    running st /\ count is_copied tr = 0%nat
    /\ count is_arm tr = 0%nat /\ count is_read tr = 0%nat
  | BArm n =>
    running st /\ In (EvCopied n None) tr
    /\ count is_arm tr = 0%nat /\ count is_read tr = 0%nat
  | BRead buf =>
    running st /\ buf = zeroes
    /\ In (EvSetReadDeadline deadline None) tr /\ count is_read tr = 0%nat
    /\ (forall c, conn st = Some c -> closed c = false -> rdeadline c = Some deadline)
  | BSend v => running st /\ sent_for v tr
  | BDone =>
    spawned st /\ count is_send tr = 1%nat
    /\ exists v,
        In (EvSend v) tr /\ sent_for v tr
        /\ ((doneChan st = Full v /\ count is_recv tr = 0%nat)
            \/ (doneChan st = Empty /\ count is_recv tr = 1%nat))
  end.

(** The socket is open and the call has neither closed it nor returned. *)
Definition live (st : State) : Prop :=
  bg st <> BIdle /\ (exists c, conn st = Some c /\ closed c = false)
  /\ count is_close (trace st) = 0%nat /\ count is_return (trace st) = 0%nat.

(** Which case of [select] gave the value [r]. *)
Definition choice (r : goerror) (st : State) : Prop :=
  let tr := trace st in
  (In (EvRecv r) tr /\ count is_recv tr = 1%nat /\ count is_cancelled tr = 0%nat
   /\ bg st = BDone /\ doneChan st = Empty)
  \/ (In EvLogCancelled tr /\ count is_recv tr = 0%nat
      /\ count is_cancelled tr = 1%nat
      /\ r = Some (ctx_Err (reason w)) /\ done st = true).

Definition sup_facts (st : State) : Prop :=
  let tr := trace st in
  match sup st with
  | SResolve => tr = [] /\ conn st = None /\ bg st = BIdle
  | SDial raddr =>
    tr = [EvResolve address] /\ ResolveUDPAddr w address = inl raddr
    /\ conn st = None /\ bg st = BIdle
  | SGo =>
    exists raddr,
      tr = [EvDial raddr; EvResolve address]
      /\ ResolveUDPAddr w address = inl raddr /\ DialUDP w raddr = None
      /\ conn st = Some {| remote := raddr; rdeadline := None; closed := false |}
      /\ bg st = BIdle
  | SSelect =>
    live st /\ count is_recv tr = 0%nat /\ count is_cancelled tr = 0%nat
  | SDefer r => live st /\ choice r st
  | SReturned r =>
    In (EvReturn r) tr /\ count is_return tr = 1%nat
    /\ ((bg st = BIdle /\ conn st = None /\ early r tr)
        \/ (bg st <> BIdle /\ count is_close tr = 1%nat
            /\ (exists c, conn st = Some c /\ closed c = true)
            /\ choice r st))
  end.

Definition Inv (st : State) : Prop :=
  justified (trace st) /\ sup_facts st /\ bg_facts st.

(** What a value on the channel says about the work done. *)
Definition sent_meaning (v : goerror) (tr : list Event) : Prop :=
  match v with
  | None =>
    exists n a t d,
      In (EvLogReceived n a) tr /\ In (EvReadFrom n None) tr
      /\ ResolveUDPAddr w address = inl a
      /\ incoming w = Some (t, d) /\ t < deadline
      /\ n = Z.min (len d) udpBufferSize
  | Some e =>
    final reader = Some e \/ e = ErrShortWrite \/ exists op c, e = OpError op c
  end.

End Invariant.

(** How far the supervising call has come. *)
Definition stage (pc : SupPC) : nat :=
  match pc with
  | SResolve => 0 | SDial _ => 1 | SGo => 2
  | SSelect => 3 | SDefer _ => 4 | SReturned _ => 5
  end.

(** The number of turns the scheduler gives to the supervising call. *)
Fixpoint sup_steps (sched : list Actor) : nat :=
  match sched with
  | [] => 0
  | Supervisor _ :: rest => S (sup_steps rest)
  | _ :: rest => sup_steps rest
  end.

(** The bytes that the writes of a history have put on the socket, oldest
    first. *)
Fixpoint payload_written (tr : list Event) : bytes :=
  match tr with
  | [] => []
  | EvWrite b n _ :: past => payload_written past ++ firstn (Z.to_nat n) b
  | _ :: past => payload_written past
  end.

Section CopyFacts.

Variable reader : Reader.

(** How far [io.Copy] has come and what it has done. *)
Definition copy_facts (st : State) : Prop :=
  let tr := trace st in
  match bg st with
  | BIdle => payload_written tr = []
  | BCopy rest written =>
    exists sent,
      chunks reader = sent ++ rest /\ written = len (List.concat sent)
      /\ payload_written tr = List.concat sent
  | _ => True
  end
  /\ (forall b n err, In (EvWrite b n err) tr -> In b (chunks reader) /\ b <> [])
  /\ (forall n e, In (EvCopied n (Some e)) tr ->
        final reader = Some e \/ (1 <= count is_write tr)%nat)
  /\ (forall n, In (EvCopied n None) tr ->
        final reader = None /\ n = len (List.concat (chunks reader))
        /\ payload_written tr = List.concat (chunks reader)).

End CopyFacts.

(** A bound on the steps the background unit has left. *)
Definition bg_fuel (pc : BgPC) : nat :=
  match pc with
  | BIdle | BDone => 0
  | BCopy rest _ => List.length rest + 4
  | BArm _ => 3
  | BRead _ => 2
  | BSend _ => 1
  end.

(** A schedule that lets a call run to its end from wherever it stands:
    the call up to its [select], the background unit to its end, the call
    to its return. *)
Definition to_the_end (reader : Reader) : list Actor :=
  repeat (Supervisor true) 3
  ++ repeat Background (List.length (chunks reader) + 4)
  ++ repeat (Supervisor true) 2.

(** The reply buffer holds what the receive has put into it. *)
Definition buffer_facts (w : World) (st : State) : Prop :=
  forall n, In (EvReadFrom n None) (trace st) ->
            exists t d, incoming w = Some (t, d) /\ fill zeroes d = (buffer st, n).

(** ** Concrete scenarios *)

Module Scenario.

Definition peer : UDPAddr := {| IP := "127.0.0.1"; Port := 9999 |}.
Definition other : UDPAddr := {| IP := "10.0.0.2"; Port := 7090 |}.

Definition ping : bytes := [Byte.x70; Byte.x69; Byte.x6e; Byte.x67].
Definition pong : bytes := [Byte.x70; Byte.x6f; Byte.x6e; Byte.x67].
Definition report : bytes :=
  [Byte.x72; Byte.x65; Byte.x70; Byte.x6f; Byte.x72; Byte.x74; Byte.x31].

(** A peer on the loopback interface that answers [reply] after 50ms; only
    the two addresses below resolve. *)
Definition echo (reply : bytes) : World :=
  {| ResolveUDPAddr := fun a =>
       if String.eqb a "127.0.0.1:9999" then inl peer
       else if String.eqb a "10.0.0.2:7090" then inl other
       else inr "missing port in address";
     DialUDP := fun _ => None;
     sys_write := fun _ b => (len b, None);
     Now := 5000;
     sys_setdeadline := None;
     incoming := Some (50005000, reply);
     sys_read := None;
     reason := Canceled |}.

Definition loopback : World := echo pong.

(** The same host without a route to any peer: [ENETUNREACH]. *)
Definition unreachable : World :=
  {| ResolveUDPAddr := ResolveUDPAddr loopback;
     DialUDP := fun _ => Some 101;
     sys_write := sys_write loopback;
     Now := 5000;
     sys_setdeadline := None;
     incoming := None;
     sys_read := None;
     reason := Canceled |}.

(** A peer that answers with a datagram of 2000 bytes. *)
Definition verbose : World := echo (repeat Byte.x41 2000).

Definition payload : Reader := {| chunks := [ping]; final := None |}.

Definition Sup : Actor := Supervisor true.
Definition Bg : Actor := Background.

(** The call runs alone, then the background unit, then the call again. *)
Definition undisturbed : list Actor :=
  [Sup; Sup; Sup; Bg; Bg; Bg; Bg; Bg; Sup; Sup].

(** The context is cancelled as soon as the background unit is started. *)
Definition cancelled_at_once : list Actor :=
  [Sup; Sup; Sup; CancelSignal; Sup; Sup].

End Scenario.

(** ** The exchange read in sequence

    What [client] returns when nothing interleaves and the context is not
    done: resolve, dial, then the work of the goroutine on the open socket,
    lines 76-104.  [None]: the receive blocks for ever. *)

Section Sequential.

Variable w : World.

(** [io.Copy] on the open socket [c], from the chunks still to read. *)
Fixpoint io_Copy (c : UDPConn) (final : goerror) (rest : list bytes) (written : Z)
  : Z * goerror :=
  match rest with
  | [] => (written, final)
  | b :: rest' =>
    if len b =? 0 then io_Copy c final rest' written
    else
      let '(nw, ew) := conn_Write w c written b in
      let written' := if 0 <? nw then written + nw else written in
      match ew with
      | Some e => (written', Some e)
      | None =>
        if len b =? nw then io_Copy c final rest' written'
        else (written', Some ErrShortWrite)
      end
  end.

(** Line 96 and what is sent for its result. *)
Definition receive (c : UDPConn) (buf : bytes) : option goerror :=
  match conn_ReadFrom w c buf with
  | None => None
  | Some (inr e) => Some (Some e)
  | Some (inl _) => Some None
  end.

(** Lines 84-104. *)
Definition arm_and_receive (c : UDPConn) : option goerror :=
  let '(c', err) := conn_SetReadDeadline w c (Now w + updTimeout) in
  match err with
  | Some e => Some (Some e)
  | None => receive c' (make udpBufferSize)
  end.

(** Lines 77-104, with the result of [io.Copy]. *)
Definition after_copy (c : UDPConn) (copied : Z * goerror) : option goerror :=
  match snd copied with
  | Some e => Some (Some e)
  | None => arm_and_receive c
  end.

(** The value that the goroutine sends, lines 71-105. *)
Definition goroutine (c : UDPConn) (reader : Reader) : option goerror :=
  after_copy c (io_Copy c (final reader) (chunks reader) 0).

(** Lines 50-105 one after the other: what the select of line 107 gets
    from the channel, or the error returned before. *)
Definition client_seq (address : string) (reader : Reader) : option goerror :=
  match ResolveUDPAddr w address with
  | inr msg => Some (Some (AddrError msg))
  | inl raddr =>
    match DialUDP w raddr with
    | Some errno => Some (Some (OpError "dial" (Errno errno)))
    | None => goroutine {| remote := raddr; rdeadline := None; closed := false |} reader
    end
  end.

(** The value that the background unit is going to send from where it
    stands, on the socket [c]. *)
Definition remaining (reader : Reader) (c : UDPConn) (pc : BgPC) : option goerror :=
  match pc with
  | BCopy rest written => after_copy c (io_Copy c (final reader) rest written)
  | BArm n => arm_and_receive c
  | BRead buf => receive c buf
  | BSend v => Some v
  | BIdle | BDone => None
  end.

(** Until the call has left its [select], the background unit is on its way
    to the value of the exchange read in sequence. *)
Definition seq_facts (address : string) (reader : Reader) (st : State) : Prop :=
  match sup st with
  | SSelect =>
    exists c, conn st = Some c
              /\ match bg st with
                 | BIdle => False
                 | BDone => forall v, doneChan st = Full v ->
                                      client_seq address reader = Some v
                 | pc => remaining reader c pc = client_seq address reader
                 end
  | SDefer r | SReturned r =>
    count is_recv (trace st) = 1%nat -> client_seq address reader = Some r
  | _ => True
  end.

End Sequential.

(** The scheduler never closes the context's [Done] channel. *)
Fixpoint undisturbed_by_cancel (sched : list Actor) : bool :=
  match sched with
  | [] => true
  | CancelSignal :: _ => false
  | _ :: rest => undisturbed_by_cancel rest
  end.

(** The number of turns the scheduler gives to the background unit. *)
Fixpoint bg_steps (sched : list Actor) : nat :=
  match sched with
  | [] => 0
  | Background :: rest => S (bg_steps rest)
  | _ :: rest => bg_steps rest
  end.

(** The socket calls of the operating system succeed: every datagram is
    written whole, the deadline can be set, the receive does not fail. *)
Definition healthy (w : World) : Prop :=
  (forall sent b, sys_write w sent b = (len b, None))
  /\ sys_setdeadline w = None /\ sys_read w = None.

(** What has been written at some moment is a part of the reader's content,
    from its start. *)
Definition written_prefix (reader : Reader) (st : State) : Prop :=
  exists rest,
    List.concat (chunks reader) = payload_written (trace st) ++ rest.

(** The turns that are left once [io.Copy] has returned: the background
    unit arms the deadline, receives and sends, the call takes the value
    and returns. *)
Definition after_the_copy : list Actor :=
  repeat Background 3 ++ repeat (Supervisor true) 2.

Module Faults.

(** The loopback peer of [Scenario] when it never answers. *)
Definition silent : World :=
  {| ResolveUDPAddr := ResolveUDPAddr Scenario.loopback;
     DialUDP := fun _ => None;
     sys_write := fun _ b => (len b, None);
     Now := 5000;
     sys_setdeadline := None;
     incoming := None;
     sys_read := None;
     reason := Canceled |}.

(** Nobody listens on the peer's port.  The first datagram goes out; the
    host answers it with an ICMP error, and every later call on the socket
    is refused: [ECONNREFUSED]. *)
Definition closed_port : World :=
  {| ResolveUDPAddr := ResolveUDPAddr Scenario.loopback;
     DialUDP := fun _ => None;
     sys_write := fun sent b => if sent =? 0 then (len b, None) else (0, Some 111);
     Now := 5000;
     sys_setdeadline := None;
     incoming := None;
     sys_read := Some 111;
     reason := Canceled |}.

(** A reader that delivers the same chunk twice. *)
Definition twice : Reader :=
  {| chunks := [Scenario.ping; Scenario.ping]; final := None |}.

(** A reader that fails after its first chunk. *)
Definition broken : Reader :=
  {| chunks := [Scenario.ping]; final := Some (errors_New "unexpected EOF") |}.

(** [io.Copy] has returned when the context is cancelled; the call takes
    the cancellation, closes the socket and returns. *)
Definition cancelled_after_copy : list Actor :=
  [Supervisor true; Supervisor true; Supervisor true; Background; Background;
   CancelSignal; Supervisor false; Supervisor true].

(** The background unit has written when the context is cancelled ... *)
Definition before_cancel : list Actor :=
  [Supervisor true; Supervisor true; Supervisor true; Background].

(** ... and every actor gets turns afterwards. *)
Definition after_cancel : list Actor :=
  [Background; Supervisor false; Background; Supervisor true; Background;
   Background; Supervisor true; Supervisor true; Supervisor true].

End Faults.

(** ** Making chargers and vehicles from the configuration

    [NewFromConfig] of package [charger] and of package [vehicle] choose a
    constructor by the lower-cased type name.  Of the constructors only
    [NewKebaFromConfig] is in the files at hand; the others, the decoding
    of the settings ([api.DecodeOther]) and the chargers and vehicles they
    make are parameters.  [log.FATAL.Fatalf] ends the process: a
    constructor that does not return gives [None]. *)

(** [strings.ToLower]: a string of bytes below [utf8.RuneSelf] is returned
    as it is when it has no upper-case letter, and else with ['a' - 'A']
    added to each of them; any other string goes through
    [strings.Map(unicode.ToLower, s)], which is a parameter here. *)
Module strings.

Definition RuneSelf : N := 128.

Definition isUpper (c : Ascii.ascii) : bool :=
  ((65 <=? Ascii.N_of_ascii c) && (Ascii.N_of_ascii c <=? 90))%N.

Definition lowerByte (c : Ascii.ascii) : Ascii.ascii :=
  if isUpper c then Ascii.ascii_of_N (Ascii.N_of_ascii c + 32) else c.

Fixpoint isASCII (s : string) : bool :=
  match s with
  | EmptyString => true
  | String c rest => (Ascii.N_of_ascii c <? RuneSelf)%N && isASCII rest
  end.

Fixpoint hasUpper (s : string) : bool :=
  match s with
  | EmptyString => false
  | String c rest => isUpper c || hasUpper rest
  end.

Fixpoint mapBytes (f : Ascii.ascii -> Ascii.ascii) (s : string) : string :=
  match s with
  | EmptyString => EmptyString
  | String c rest => String (f c) (mapBytes f rest)
  end.

Definition ToLower (unicodeLower : string -> string) (s : string) : string :=
  if isASCII s then
    if hasUpper s then mapBytes lowerByte s else s
  else unicodeLower s.

End strings.

(** [case "a", "b":] of a [switch] on a string. *)
Definition one_of (s : string) (names : list string) : bool :=
  existsb (String.eqb s) names.

(** [*api.Logger], known by its name. *)
Definition Logger := string.

Module charger.

Section Config.

(** [map[string]interface{}], the settings of one charger *)
Variable Other : Type.
(** the chargers of the other files *)
Variable Foreign : Type.
Variable unicodeLower : string -> string.
(** [cc.URI] after [api.DecodeOther(log, other, &cc)] *)
Variable DecodeOther : Logger -> Other -> option string.

(** [api.Charger] *)
Inductive Charger : Type :=
| KebaCharger (k : Keba.t)
| ForeignCharger (c : Foreign).

Variable NewConfigurableFromConfig : Logger -> Other -> option Charger.
Variable NewWallbeFromConfig : Logger -> Other -> option Charger.
Variable NewPhoenixFromConfig : Logger -> Other -> option Charger.
Variable NewNRGKickFromConfig : Logger -> Other -> option Charger.
Variable NewGoEFromConfig : Logger -> Other -> option Charger.
Variable NewEVSEWifiFromConfig : Logger -> Other -> option Charger.
Variable NewSimpleEVSEFromConfig : Logger -> Other -> option Charger.

(** Lines 25-30 of the Keba file. *)
Definition NewKebaFromConfig (log : Logger) (other : Other) : option Charger :=
  match DecodeOther log other with
  | Some URI => Some (KebaCharger (Keba.NewKeba URI))
  | None => None
  end.

(** Lines 12-37 of [charger/config.go]. *)
Definition NewFromConfig (log : Logger) (typ : string) (other : Other)
  : option Charger :=
  let t := strings.ToLower unicodeLower typ in
  if one_of t ["default"; "configurable"] then NewConfigurableFromConfig log other
  else if one_of t ["wallbe"] then NewWallbeFromConfig log other
  else if one_of t ["phoenix"] then NewPhoenixFromConfig log other
  else if one_of t ["nrgkick"; "nrg"; "kick"] then NewNRGKickFromConfig log other
  else if one_of t ["go-e"; "goe"] then NewGoEFromConfig log other
  else if one_of t ["evsewifi"] then NewEVSEWifiFromConfig log other
  else if one_of t ["simpleevse"; "evse"] then NewSimpleEVSEFromConfig log other
  else if one_of t ["keba"] then NewKebaFromConfig log other
  else None.

End Config.

End charger.

Module vehicle.

Section Config.

Variable Other : Type.
(** [api.Vehicle] *)
Variable Vehicle : Type.
Variable unicodeLower : string -> string.

Variable NewConfigurableFromConfig : Logger -> Other -> option Vehicle.
Variable NewAudiFromConfig : Logger -> Other -> option Vehicle.
Variable NewBMWFromConfig : Logger -> Other -> option Vehicle.
Variable NewTeslaFromConfig : Logger -> Other -> option Vehicle.
Variable NewNissanFromConfig : Logger -> Other -> option Vehicle.
Variable NewRenaultFromConfig : Logger -> Other -> option Vehicle.

(** Lines 10-31 of the vehicle file. *)
Definition NewFromConfig (log : Logger) (typ : string) (other : Other)
  : option Vehicle :=
  let t := strings.ToLower unicodeLower typ in
  if one_of t ["default"; "configurable"] then NewConfigurableFromConfig log other
  else if one_of t ["audi"; "etron"] then NewAudiFromConfig log other
  else if one_of t ["bmw"; "i3"] then NewBMWFromConfig log other
  else if one_of t ["tesla"; "model3"; "model 3"; "models"; "model s"]
       then NewTeslaFromConfig log other
  else if one_of t ["nissan"; "leaf"] then NewNissanFromConfig log other
  else if one_of t ["renault"; "zoe"] then NewRenaultFromConfig log other
  else None.

End Config.

End vehicle.

(** * Proofs *)

(** ** Counting and splitting histories *)

Lemma count_app p (l1 l2 : list Event) :
  count p (l1 ++ l2) = (count p l1 + count p l2)%nat.
Proof. induction l1 as [|e l1 IH]; simpl; [reflexivity|]. rewrite IH. lia. Qed.

Lemma count_In p e (tr : list Event) :
  In e tr -> p e = true -> (1 <= count p tr)%nat.
Proof.
  induction tr as [|x tr IH]; simpl; [tauto|].
  intros [->|Hin] Hp; [rewrite Hp; lia|]. specialize (IH Hin Hp). lia.
Qed.

Lemma count_zero_In p e (tr : list Event) :
  count p tr = 0%nat -> In e tr -> p e = false.
Proof.
  intros Hc Hin. destruct (p e) eqn:Hp; [|reflexivity].
  pose proof (count_In p e tr Hin Hp). lia.
Qed.

Lemma count_unique p a b (tr : list Event) :
  (count p tr <= 1)%nat -> In a tr -> In b tr ->
  p a = true -> p b = true -> a = b.
Proof.
  induction tr as [|x tr IH]; simpl; [tauto|].
  intros Hc [->|Ha] [->|Hb] Hpa Hpb; auto.
  - rewrite Hpa in Hc. pose proof (count_In p b tr Hb Hpb). lia.
  - rewrite Hpb in Hc. pose proof (count_In p a tr Ha Hpa). lia.
  - apply IH; auto. destruct (p x); lia.
Qed.

(** Case analysis of one step: open the matches of the step function from
    the outside. *)
Ltac step_cases H :=
  repeat (simpl in H;
    lazymatch type of H with
    | match ?x with _ => _ end = _ => destruct x eqn:?
    | (if ?x then _ else _) = _ => destruct x eqn:?
    | (let '(_, _) := ?x in _) = _ => destruct x eqn:?
    | Some (if ?x then _ else _) = _ => destruct x eqn:?
    end);
  simpl in H; try discriminate H;
  try (injection H as H; subst).

Section Histories.

Variable w : World.
Variable address : string.
Variable reader : Reader.

Lemma justified_app newer e past :
  justified w address reader (newer ++ e :: past) ->
  pre w address reader e past /\ justified w address reader past.
Proof.
  induction newer as [|x newer IH]; simpl; [tauto|]. intros [_ H]. auto.
Qed.

Lemma justified_In tr e :
  justified w address reader tr -> In e tr ->
  exists newer past,
    tr = newer ++ e :: past /\ pre w address reader e past
    /\ justified w address reader past.
Proof.
  intros J Hin. destruct (in_split _ _ Hin) as (newer & past & ->).
  exists newer, past. split; [reflexivity|]. apply (justified_app _ _ _ J).
Qed.

Lemma run_app s1 s2 st :
  run w address reader (s1 ++ s2) st
  = run w address reader s2 (run w address reader s1 st).
Proof. apply fold_left_app. Qed.

Lemma step_sup_trace coin st st' :
  step_sup w address reader coin st = Some st' ->
  exists newer, trace st' = newer ++ trace st /\ count is_bg newer = 0%nat.
Proof.
  unfold step_sup, set_sup. intros H. step_cases H; simpl;
    first [ exists []; split; reflexivity | eexists [_]; split; reflexivity
          | eexists [_; _]; split; reflexivity ].
Qed.

Lemma step_bg_trace st st' :
  step_bg w reader st = Some st' ->
  exists newer, trace st' = newer ++ trace st /\ sup st' = sup st.
Proof.
  unfold step_bg, set_bg. intros H. step_cases H; simpl;
    first [ exists []; split; reflexivity | eexists [_]; split; reflexivity
          | eexists [_; _]; split; reflexivity ].
Qed.

Lemma exec_trace a st :
  exists newer, trace (exec w address reader st a) = newer ++ trace st.
Proof.
  unfold exec, step. destruct a as [coin| |].
  - destruct (step_sup w address reader coin st) eqn:E; [|exists []; reflexivity].
    destruct (step_sup_trace _ _ _ E) as (n & -> & _). eauto.
  - destruct (step_bg w reader st) eqn:E; [|exists []; reflexivity].
    destruct (step_bg_trace _ _ E) as (n & -> & _). eauto.
  - exists []. reflexivity.
Qed.

Lemma run_trace sched : forall st,
  exists newer, trace (run w address reader sched st) = newer ++ trace st.
Proof.
  induction sched as [|a sched IH]; intros st; simpl.
  - exists []. reflexivity.
  - destruct (IH (exec w address reader st a)) as (n1 & H1).
    destruct (exec_trace a st) as (n2 & H2).
    exists (n1 ++ n2). rewrite H1, H2, app_assoc. reflexivity.
Qed.

Lemma exec_result a st r :
  result st = Some r -> result (exec w address reader st a) = Some r.
Proof.
  unfold result, exec, step. destruct (sup st) eqn:E; try discriminate.
  intros H. destruct a as [coin| |].
  - unfold step_sup. rewrite E. rewrite E. exact H.
  - destruct (step_bg w reader st) eqn:B; [|rewrite E; exact H].
    destruct (step_bg_trace _ _ B) as (n & _ & ->). rewrite E. exact H.
  - simpl. rewrite E. exact H.
Qed.

Lemma run_result sched : forall st r,
  result st = Some r -> result (run w address reader sched st) = Some r.
Proof.
  induction sched as [|a sched IH]; intros st r H; simpl; auto.
  apply IH, exec_result, H.
Qed.

End Histories.

(** ** The socket layer *)

Lemma len_zeroes : len zeroes = udpBufferSize.
Proof.
  unfold zeroes, make, len. rewrite repeat_length.
  rewrite Z2Nat.id; unfold udpBufferSize; lia.
Qed.

Lemma fill_count (buf d : bytes) : snd (fill buf d) = Z.min (len d) (len buf).
Proof. unfold fill, len; simpl. rewrite length_firstn. lia. Qed.

Lemma fill_bytes (buf d : bytes) :
  firstn (Z.to_nat (snd (fill buf d))) (fst (fill buf d)) = firstn (List.length buf) d.
Proof.
  unfold fill, len; simpl. rewrite Nat2Z.id.
  rewrite firstn_app, Nat.sub_diag, firstn_all. simpl. apply app_nil_r.
Qed.

Lemma fill_length (buf d : bytes) : List.length (fst (fill buf d)) = List.length buf.
Proof.
  unfold fill; simpl. rewrite length_app, length_skipn, length_firstn. lia.
Qed.

Lemma conn_Write_err w c sent b n err :
  conn_Write w c sent b = (n, err) ->
  net_error "write" err
  /\ (closed c = true -> err = Some (OpError "write" ErrClosed)).
Proof.
  unfold conn_Write, net_error.
  destruct (closed c); [|destruct (sys_write w sent b) as [m [e|]]];
    intros H; inversion H; subst; split; eauto; discriminate.
Qed.

Lemma conn_SetReadDeadline_err w c t c' err :
  conn_SetReadDeadline w c t = (c', err) -> net_error "set" err.
Proof.
  unfold conn_SetReadDeadline, net_error.
  destruct (closed c); [|destruct (sys_setdeadline w)];
    intros H; inversion H; subst; eauto.
Qed.

Lemma conn_ReadFrom_err w c buf e :
  conn_ReadFrom w c buf = Some (inr e) ->
  net_error "read" (Some e)
  /\ (closed c = true -> Some e = Some (OpError "read" ErrClosed)).
Proof.
  unfold conn_ReadFrom, net_error.
  destruct (closed c); [|destruct (sys_read w)].
  1,2: intros H; inversion H; subst; split; eauto; discriminate.
  destruct (incoming w) as [[t d]|], (rdeadline c) as [dl|];
    try destruct (t <? dl); try destruct (fill buf d);
    intros H; inversion H; subst; split; eauto; discriminate.
Qed.

(** A receive that succeeds took a datagram that arrived before the
    deadline of the open socket; the sender is the dialed peer. *)
Lemma conn_ReadFrom_ok w c buf b n a dl :
  conn_ReadFrom w c buf = Some (inl (b, n, a)) ->
  rdeadline c = Some dl ->
  closed c = false /\ a = remote c
  /\ exists t d, incoming w = Some (t, d) /\ t < dl /\ fill buf d = (b, n).
Proof.
  unfold conn_ReadFrom. intros H Hdl. rewrite Hdl in H.
  destruct (closed c); [discriminate|].
  destruct (sys_read w); [discriminate|].
  destruct (incoming w) as [[t d]|]; [|discriminate].
  destruct (t <? dl) eqn:Ht; [|discriminate].
  destruct (fill buf d) as [b0 n0] eqn:F. inversion H; subst.
  apply Z.ltb_lt in Ht. split; [reflexivity|]. split; [reflexivity|].
  exists t, d. auto.
Qed.

(** ** The invariant holds along every schedule *)

Lemma sent_for_mono w v e tr :
  uses_conn e = false -> is_copied e = false ->
  sent_for w v tr -> sent_for w v (e :: tr).
Proof.
  intros Hu Hc. destruct v as [err|]; simpl.
  - intros [(n & Hin & Ha & Hr) | [(Hin & Hr) | (n & Hin)]].
    + left. exists n. destruct e; simpl in *; try discriminate; auto.
    + right; left. destruct e; simpl in *; try discriminate; auto.
    + right; right. exists n. auto.
  - intros (n & a & Hin). exists n, a. auto.
Qed.

(** Proof automation for the case analyses over the two program counters. *)

Ltac inv_facts :=
  repeat match goal with
  | H : _ = _ |- _ => discriminate H
  | H : _ /\ _ |- _ => destruct H
  | H : exists _, _ |- _ => destruct H
  | H : _ \/ _ |- _ => destruct H
  | H : Some _ = Some _ |- _ => inversion H; subst; clear H
  | H : Full _ = Full _ |- _ => inversion H; subst; clear H
  | H : None = Some _ |- _ => discriminate H
  | H : Some _ = None |- _ => discriminate H
  | H : NoChan = _ |- _ => discriminate H
  | H : Empty = _ |- _ => discriminate H
  | H : Full _ = _ |- _ => discriminate H
  | H : ?x = ?x |- _ => clear H
  | H : ?x <> ?x |- _ => destruct H; reflexivity
  end.

Ltac tidy :=
  unfold set_sup, set_bg, live, running, spawned, choice, early in *;
  repeat (inv_facts; subst; simpl in * ).

Ltac leaf :=
  simpl; first [ assumption | reflexivity | lia | discriminate | congruence
               | solve [eauto] | idtac ].

Ltac solve_goal :=
  simpl;
  lazymatch goal with
  | |- _ /\ _ => split; solve_goal
  | |- _ \/ _ => first [ solve [left; solve_goal] | solve [right; solve_goal] | idtac ]
  | |- exists _, _ => eexists; solve_goal
  | |- net_error _ _ => first [ assumption | unfold net_error; solve_goal ]
  | |- closed_fails _ _ _ =>
    unfold closed_fails; simpl; intros;
    first [ exfalso; lia | reflexivity | solve [eauto] | congruence | idtac ]
  | |- sent_for _ _ (_ :: _) =>
    first [ solve [repeat (apply sent_for_mono; [reflexivity | reflexivity | ]); assumption] | idtac ]
  | |- _ -> _ => intros; tidy; solve_goal
  | |- _ => leaf
  end.

Ltac finish := tidy; try (exfalso; lia); unfold origin, early; solve_goal.

Section InvariantProofs.

Variable w : World.
Variable address : string.
Variable reader : Reader.

Lemma Inv_init : Inv w address reader init.
Proof. repeat split. Qed.

Lemma Inv_sup coin st st' :
  Inv w address reader st ->
  step_sup w address reader coin st = Some st' -> Inv w address reader st'.
Proof.
  unfold Inv, step_sup, sup_facts, bg_facts.
  destruct st as [s b c ch d buf tr]; simpl.
  intros (J & HS & HB) Hstep.
  destruct s; simpl in *.
  - destruct (ResolveUDPAddr w address) eqn:R; finish.
  - destruct (DialUDP w raddr) eqn:D; finish.
  - finish.
  - destruct d, ch; try destruct coin; try discriminate; destruct b; finish.
  - destruct b; finish.
  - discriminate.
Qed.

Lemma Inv_bg st st' :
  Inv w address reader st ->
  step_bg w reader st = Some st' -> Inv w address reader st'.
Proof.
  unfold Inv, step_bg, sup_facts, bg_facts.
  destruct st as [s b c ch d buf tr]; simpl.
  intros (J & HS & HB) Hstep.
  destruct b; simpl in *; try discriminate.
  - destruct c as [c|]; [|destruct rest; discriminate].
    destruct rest as [|x rest].
    + destruct (final reader) eqn:F; destruct s; finish.
    + destruct (len x =? 0).
      * destruct s; finish.
      * destruct (conn_Write w c _ x) as [nw ew] eqn:Wr.
        apply conn_Write_err in Wr. destruct Wr as (Wr & Wcl).
        destruct ew as [e|]; [|destruct (len x =? nw)]; destruct s; finish.
  - destruct c as [c|]; [|discriminate].
    unfold conn_SetReadDeadline in Hstep.
    destruct (closed c) eqn:Cl; [|destruct (sys_setdeadline w) eqn:Sd]; destruct s; finish.
  - destruct c as [c|]; [|discriminate].
    destruct HB as (Hrun & -> & Harm & Hread & Hdl).
    destruct (conn_ReadFrom w c zeroes) as [[[[b' n] a]|e]|] eqn:Rd; [| |discriminate].
    + assert (Hcl : closed c = false)
        by (unfold conn_ReadFrom in Rd; destruct (closed c); [discriminate|reflexivity]).
      specialize (Hdl c eq_refl Hcl).
      destruct (conn_ReadFrom_ok _ _ _ _ _ _ _ Rd Hdl) as (_ & -> & t & dg & Hin & Hlt & Hfill).
      assert (Hn : n = Z.min (len dg) udpBufferSize)
        by (rewrite <- len_zeroes, <- fill_count, Hfill; reflexivity).
      clear Rd Hfill. destruct s; finish.
    + apply conn_ReadFrom_err in Rd. destruct Rd as (Rd & Rcl). destruct s; finish.
  - destruct ch; try discriminate. destruct s; finish.
  (* witnesses left open where a case was closed by contradiction *)
  Unshelve. all: first [exact EmptyString | exact 0].
Qed.

Lemma Inv_exec a st :
  Inv w address reader st -> Inv w address reader (exec w address reader st a).
Proof.
  intros H. unfold exec, step.
  destruct a as [coin| |].
  - destruct (step_sup w address reader coin st) eqn:E; eauto using Inv_sup.
  - destruct (step_bg w reader st) eqn:E; eauto using Inv_bg.
  - destruct st as [s b c ch d buf tr].
    unfold Inv, sup_facts, bg_facts in *; simpl in *.
    destruct H as (J & HS & HB). split; [exact J|]. split.
    + destruct s; auto; unfold live, choice in *; simpl in *; intuition auto.
    + destruct b; auto.
Qed.

Lemma Inv_run_from sched :
  forall st, Inv w address reader st ->
             Inv w address reader (run w address reader sched st).
Proof.
  induction sched as [|a sched IH]; intros st H; simpl; auto.
  apply IH, Inv_exec, H.
Qed.

Lemma Inv_run sched : Inv w address reader (run w address reader sched init).
Proof. apply Inv_run_from, Inv_init. Qed.

End InvariantProofs.

(** ** Where the outcome of a call comes from *)

Section Outcomes.

Variable w : World.
Variable address : string.
Variable reader : Reader.

Lemma justified_past tr e :
  justified w address reader tr -> In e tr ->
  exists past,
    pre w address reader e past /\ justified w address reader past
    /\ incl past tr.
Proof.
  intros J Hin. destruct (justified_In _ _ _ _ _ J Hin) as (newer & past & -> & P & J').
  exists past. repeat split; auto.
  intros x Hx. apply in_or_app. right. right. exact Hx.
Qed.

Lemma sent_value tr v :
  justified w address reader tr -> In (EvSend v) tr ->
  sent_meaning w address reader v tr.
Proof.
  intros J Hin.
  destruct (justified_past _ _ J Hin) as (p1 & (_ & Hs) & J1 & I1).
  destruct v as [e|]; simpl in *.
  - destruct Hs as [(n & Hc & _) | [(Ha & _) | (n & Hr)]].
    + destruct (justified_past _ _ J1 Hc) as (p2 & (_ & _ & [H|[H|[H|(c & H)]]]) & _).
      * left. congruence.
      * right; left. congruence.
      * discriminate.
      * right; right. inversion H; eauto.
    + destruct (justified_past _ _ J1 Ha) as (p2 & (_ & _ & _ & _ & _ & [H|(c & H)] & _) & _).
      * discriminate.
      * right; right. inversion H; eauto.
    + destruct (justified_past _ _ J1 Hr) as (p2 & (_ & _ & _ & [H|(c & H)] & _) & _).
      * discriminate.
      * right; right. inversion H; eauto.
  - destruct Hs as (n & a & Hl).
    destruct (justified_past _ _ J1 Hl) as (p2 & (Hr & Ha) & J2 & I2).
    destruct (justified_past _ _ J2 Hr) as (p3 & (_ & _ & _ & _ & _ & Hd) & _ & _).
    destruct (Hd eq_refl) as (t & d & Hi & Ht & Hn).
    exists n, a, t, d. repeat split; auto.
Qed.

(** Where a returned value comes from. *)
Lemma returned_origin sched r :
  let st := run w address reader sched init in
  result st = Some r ->
  In (EvReturn r) (trace st)
  /\ ((exists msg, ResolveUDPAddr w address = inr msg /\ r = Some (AddrError msg)
                   /\ trace st = [EvReturn r; EvResolve address])
      \/ (exists raddr errno,
             ResolveUDPAddr w address = inl raddr /\ DialUDP w raddr = Some errno
             /\ r = Some (OpError "dial" (Errno errno))
             /\ trace st = [EvReturn r; EvDial raddr; EvResolve address])
      \/ (In (EvRecv r) (trace st) /\ In (EvSend r) (trace st)
          /\ count is_recv (trace st) = 1%nat /\ finished st = true
          /\ doneChan st = Empty)
      \/ (In EvLogCancelled (trace st) /\ count is_recv (trace st) = 0%nat
          /\ r = Some (ctx_Err (reason w)) /\ done st = true)).
Proof.
  intros st Hres. pose proof (Inv_run w address reader sched) as (J & HS & HB).
  fold st in J, HS, HB. unfold result in Hres. unfold sup_facts in HS.
  destruct (sup st) eqn:E; try discriminate. inversion Hres; subst; clear Hres.
  destruct HS as (Hret & Hcnt & Hrest). split; [exact Hret|].
  destruct Hrest as [(_ & _ & [He|He]) | (Hb & _ & _ & [Hc|Hc])].
  - left. destruct He as (msg & ? & ? & ?). eauto.
  - right; left. destruct He as (raddr & errno & ? & ? & ? & ?). eauto 10.
  - right; right; left. destruct Hc as (Hrecv & Hn & _ & Hd & Hch).
    destruct (justified_past _ _ J Hrecv) as (p & (Hs & _) & _ & Hi).
    unfold finished. rewrite Hd. auto.
  - right; right; right. destruct Hc as (? & ? & _ & ? & ?). auto.
Qed.

(** Every error the call returns is an error of package [net], of the
    context or of [io.Copy], or else the error of the caller's own reader. *)
Lemma returned_error sched e :
  result (run w address reader sched init) = Some (Some e) ->
  final reader = Some e \/ e = ErrShortWrite \/ e = ctx_Err (reason w)
  \/ (exists msg, e = AddrError msg) \/ (exists op c, e = OpError op c).
Proof.
  intros H. destruct (returned_origin _ _ H) as (_ & [Hr|[Hr|[Hr|Hr]]]).
  - destruct Hr as (msg & _ & Hr & _). inversion Hr; eauto 10.
  - destruct Hr as (raddr & errno & _ & _ & Hr & _). inversion Hr; eauto 10.
  - destruct Hr as (_ & Hs & _).
    pose proof (Inv_run w address reader sched) as (J & _).
    destruct (sent_value _ _ J Hs) as [Hf|[Hf|Hf]]; auto 10.
  - destruct Hr as (_ & _ & Hr & _). inversion Hr; auto.
Qed.

End Outcomes.

(** ** Calls that fail before they have a socket *)

Section Early.

Variable w : World.
Variable address : string.
Variable reader : Reader.

Lemma stage_exec a st :
  (stage (sup st) <= stage (sup (exec w address reader st a)))%nat
  /\ (forall coin, a = Supervisor coin -> (stage (sup st) < 3)%nat ->
      (stage (sup st) < stage (sup (exec w address reader st a)))%nat).
Proof.
  unfold exec, step. destruct a as [coin| |].
  - destruct (step_sup w address reader coin st) as [st'|] eqn:E.
    + unfold step_sup, set_sup in E.
      destruct (sup st) eqn:Es; step_cases E; simpl; split; intros; lia.
    + unfold step_sup, set_sup in E.
      destruct (sup st) eqn:Es; step_cases E; simpl; split; intros; lia.
  - destruct (step_bg w reader st) as [st'|] eqn:E.
    + destruct (step_bg_trace w reader _ _ E) as (n & _ & ->). split; [lia|discriminate].
    + split; [lia|discriminate].
  - simpl. split; [lia|discriminate].
Qed.

Lemma stage_run sched : forall st,
  (Nat.min 3 (stage (sup st) + sup_steps sched)
   <= stage (sup (run w address reader sched st)))%nat.
Proof.
  induction sched as [|a sched IH]; intros st; unfold run in *;
    cbn [fold_left sup_steps].
  - lia.
  - specialize (IH (exec w address reader st a)).
    destruct (stage_exec a st) as (Hm & Hs).
    destruct a as [coin| |]; try lia.
    destruct (Nat.lt_ge_cases (stage (sup st)) 3) as [Hlt|Hge].
    + specialize (Hs coin eq_refl Hlt). lia.
    + lia.
Qed.

(** The background unit exists only after a resolve and a dial that
    succeeded. *)
Lemma go_world tr :
  justified w address reader tr -> In EvGo tr ->
  exists raddr, ResolveUDPAddr w address = inl raddr /\ DialUDP w raddr = None.
Proof.
  intros J Hin.
  destruct (justified_past _ _ _ _ _ J Hin) as (p & (raddr & -> & Hd) & J1 & _).
  destruct J1 as ((Hr & _) & _). eauto.
Qed.

Lemma started_spawned st :
  bg_facts w address st -> bg st <> BIdle -> spawned w address st.
Proof.
  unfold bg_facts, running. destruct (bg st); intros H Hb; try tauto.
Qed.

(** A call that cannot get a socket stays without one. *)
Lemma no_socket sched :
  let st := run w address reader sched init in
  (forall raddr, ResolveUDPAddr w address = inl raddr -> DialUDP w raddr <> None) ->
  conn st = None /\ bg st = BIdle /\ doneChan st = NoChan
  /\ count is_bg (trace st) = 0%nat
  /\ (forall r, result st = Some r -> early w address r (trace st)).
Proof.
  intros st Hw. pose proof (Inv_run w address reader sched) as (J & HS & HB).
  fold st in J, HS, HB.
  assert (Hidle : bg st = BIdle).
  { destruct (bg st) eqn:Eb; auto; exfalso.
    all: assert (Hs : spawned w address st)
      by (apply started_spawned; [exact HB | rewrite Eb; discriminate]).
    all: destruct Hs as (Hgo & _); destruct (go_world _ J Hgo) as (raddr & Hr & Hd).
    all: exact (Hw raddr Hr Hd). }
  unfold bg_facts in HB. rewrite Hidle in HB. destruct HB as (Hc & Hch).
  assert (Hconn : conn st = None /\ forall r, result st = Some r -> early w address r (trace st)).
  { unfold sup_facts, result in *. destruct (sup st) eqn:Es.
    - split; [tauto|discriminate].
    - split; [tauto|discriminate].
    - exfalso. destruct HS as (raddr & _ & Hr & Hd & _). exact (Hw raddr Hr Hd).
    - exfalso. destruct HS as ((Hb & _) & _). auto.
    - exfalso. destruct HS as ((Hb & _) & _). auto.
    - destruct HS as (_ & _ & [(_ & Hn & He)|(Hb & _)]); [|exfalso; auto].
      split; [exact Hn|]. intros r Hr. inversion Hr; subst. exact He. }
  tauto.
Qed.

End Early.

(** ** The order of the background unit's work *)

Lemma count_zero_all p (l : list Event) :
  (forall e, In e l -> p e = false) -> count p l = 0%nat.
Proof.
  induction l as [|x l IH]; simpl; intros H; [reflexivity|].
  rewrite (H x (or_introl eq_refl)), IH; auto.
Qed.

Lemma count_pos_In p (l : list Event) :
  (1 <= count p l)%nat -> exists e, In e l /\ p e = true.
Proof.
  induction l as [|x l IH]; simpl; [lia|].
  destruct (p x) eqn:Hp; [eauto|].
  intros H. destruct (IH H) as (e & He & Hpe). eauto.
Qed.

Section Order.

Variable w : World.
Variable address : string.
Variable reader : Reader.

Lemma copied_once tr :
  justified w address reader tr -> (count is_copied tr <= 1)%nat.
Proof.
  induction tr as [|e tr IH]; simpl; [lia|].
  intros (P & J). specialize (IH J).
  destruct e; simpl in *; lia.
Qed.

Lemma arm_needs_copy tr t err :
  justified w address reader tr -> In (EvSetReadDeadline t err) tr ->
  exists n, In (EvCopied n None) tr.
Proof.
  intros J Hin.
  destruct (justified_past _ _ _ _ _ J Hin) as (p & (_ & (n & Hn) & _) & _ & Hi).
  exists n. auto.
Qed.

Lemma read_needs_arm tr n err :
  justified w address reader tr -> In (EvReadFrom n err) tr ->
  In (EvSetReadDeadline (deadline w) None) tr.
Proof.
  intros J Hin.
  destruct (justified_past _ _ _ _ _ J Hin) as (p & (Ha & _) & _ & Hi). auto.
Qed.

Lemma copy_failed_only tr n e m :
  justified w address reader tr ->
  In (EvCopied n (Some e)) tr -> In (EvCopied m None) tr -> False.
Proof.
  intros J H1 H2.
  assert (H : EvCopied n (Some e) = EvCopied m None)
    by (apply (count_unique is_copied _ _ tr); auto using copied_once).
  discriminate H.
Qed.

Lemma copy_failed_sent tr n e v :
  justified w address reader tr ->
  In (EvCopied n (Some e)) tr -> sent_for w v tr ->
  v = Some e /\ count is_arm tr = 0%nat /\ count is_read tr = 0%nat.
Proof.
  intros J Hc Hs. destruct v as [e'|]; simpl in Hs.
  - destruct Hs as [(n' & Hc' & Ha & Hr) | [(Ha & _) | (n' & Hr)]].
    + assert (H : EvCopied n (Some e) = EvCopied n' (Some e'))
        by (apply (count_unique is_copied _ _ tr); auto using copied_once).
      inversion H; subst. auto.
    + exfalso. destruct (arm_needs_copy _ _ _ J Ha) as (m & Hm).
      eapply copy_failed_only; eauto.
    + exfalso. pose proof (read_needs_arm _ _ _ J Hr) as Ha.
      destruct (arm_needs_copy _ _ _ J Ha) as (m & Hm).
      eapply copy_failed_only; eauto.
  - exfalso. destruct Hs as (n' & a & Hl).
    destruct (justified_past _ _ _ _ _ J Hl) as (p & (Hr & _) & _ & Hi).
    pose proof (read_needs_arm _ _ _ J (Hi _ Hr)) as Ha.
    destruct (arm_needs_copy _ _ _ J Ha) as (m & Hm).
    eapply copy_failed_only; eauto.
Qed.

End Order.

(** ** What [io.Copy] writes *)

Section Induction.

Variable w : World.
Variable address : string.
Variable reader : Reader.

Lemma run_snoc sched a st :
  run w address reader (sched ++ [a]) st
  = exec w address reader (run w address reader sched st) a.
Proof. rewrite run_app. reflexivity. Qed.

(** Induction over the states a call can reach. *)
Lemma run_ind (P : State -> Prop) :
  P init ->
  (forall st a, Inv w address reader st -> P st -> P (exec w address reader st a)) ->
  forall sched, P (run w address reader sched init).
Proof.
  intros H0 Hstep sched. induction sched as [|a sched IH] using rev_ind.
  - exact H0.
  - rewrite run_snoc. apply Hstep; [apply Inv_run|exact IH].
Qed.

Lemma len_app {A} (l1 l2 : list A) : len (l1 ++ l2) = len l1 + len l2.
Proof. unfold len. rewrite length_app. lia. Qed.

Ltac old_events :=
  intros;
  repeat match goal with
         | H : _ = _ \/ _ |- _ => destruct H as [H|H]; [try discriminate H|]
         end;
  eauto.

Lemma copy_facts_sup coin st st' :
  Inv w address reader st -> copy_facts reader st ->
  step_sup w address reader coin st = Some st' -> copy_facts reader st'.
Proof.
  intros (J & HS & HB) (Hpc & Hw & Hf & Hok) Hstep.
  unfold step_sup, set_sup in Hstep. unfold sup_facts in HS. unfold copy_facts.
  destruct (sup st) eqn:Es; step_cases Hstep; simpl.
  all: try solve [split; [exact Hpc|]; split; [|split]; old_events].
  destruct HS as (raddr & Ht & _ & _ & _ & Hb). rewrite Hb in Hpc.
  split; [|split; [|split]]; try solve [old_events].
  exists []. auto.
Qed.

Lemma len_zero {A} (b : list A) : len b = 0 <-> b = [].
Proof. unfold len. destruct b; simpl; split; intros H; try reflexivity; try discriminate; lia. Qed.

Lemma concat_snoc {A} (ls : list (list A)) (l : list A) :
  List.concat (ls ++ [l]) = List.concat ls ++ l.
Proof. rewrite concat_app. simpl. rewrite app_nil_r. reflexivity. Qed.

Lemma copy_facts_bg st st' :
  Inv w address reader st -> copy_facts reader st ->
  step_bg w reader st = Some st' -> copy_facts reader st'.
Proof.
  intros (J & HS & HB) (Hpc & Hw & Hf & Hok) Hstep.
  unfold step_bg, set_bg in Hstep. unfold bg_facts in HB. unfold copy_facts.
  destruct (bg st) eqn:Eb; step_cases Hstep; simpl.
  all: try solve [split; [exact I|]; split; [|split]; old_events].
  all: destruct HB as (_ & Hz & _); destruct Hpc as (sent & Hch & Hwr & Hpw).
  all: assert (Hno : forall n err, ~ In (EvCopied n err) (trace st))
    by (intros n0 err0 Hin; pose proof (count_In is_copied _ _ Hin eq_refl); lia).
  all: try match goal with
           | H : (len ?b =? 0) = false |- _ =>
             apply Z.eqb_neq in H;
             assert (Hb : In b (chunks reader) /\ b <> [])
               by (split; [rewrite Hch; apply in_or_app; right; left; reflexivity
                          | intros ->; apply H; reflexivity])
           end.
  - (* the reader fails *)
    split; [exact I|]. split; [old_events|]. split.
    + intros n e0 [H|H]; [inversion H; subst; auto | destruct (Hno _ _ H)].
    + intros n [H|H]; [discriminate H | destruct (Hno _ _ H)].
  - (* io.EOF *)
    rewrite app_nil_r in Hch. subst sent.
    split; [exact I|]. split; [old_events|]. split.
    + intros n e0 [H|H]; [discriminate H | destruct (Hno _ _ H)].
    + intros n [H|H]; [inversion H; subst; auto | destruct (Hno _ _ H)].
  - (* a read of no bytes *)
    apply Z.eqb_eq, len_zero in Heqb0. subst b.
    split; [|split; [|split]]; try solve [old_events].
    exists (sent ++ [[]]). split; [rewrite <- app_assoc; exact Hch|].
    unfold bytes in *. rewrite concat_snoc, app_nil_r. auto.
  - (* the write fails *)
    split; [exact I|]. split; [|split].
    + intros b0 n err [H|[H|H]]; [discriminate H | inversion H; subst; exact Hb | eauto].
    + intros. right. lia.
    + intros n [H|[H|H]]; [discriminate H | discriminate H | destruct (Hno _ _ H)].
  - (* the write succeeds *)
    apply Z.eqb_eq in Heqb1. subst z.
    assert (Hpos : 0 < len b) by (unfold len in *; lia).
    apply Z.ltb_lt in Hpos. rewrite Hpos.
    split; [|split; [|split]].
    + exists (sent ++ [b]). split; [rewrite <- app_assoc; exact Hch|].
      unfold bytes in *. rewrite concat_snoc, len_app.
      replace (Z.to_nat (len b)) with (List.length b) by (unfold len; lia).
      rewrite firstn_all. subst written. rewrite Hpw. auto.
    + intros b0 n err [H|H]; [inversion H; subst; exact Hb | eauto].
    + intros. right. lia.
    + intros n [H|H]; [discriminate H | destruct (Hno _ _ H)].
  - (* a short write *)
    split; [exact I|]. split; [|split].
    + intros b0 n err [H|[H|H]]; [discriminate H | inversion H; subst; exact Hb | eauto].
    + intros. right. lia.
    + intros n [H|[H|H]]; [discriminate H | discriminate H | destruct (Hno _ _ H)].
Qed.

Lemma copy_facts_run sched :
  copy_facts reader (run w address reader sched init).
Proof.
  apply run_ind.
  - unfold copy_facts; simpl. repeat split; intros; contradiction.
  - intros st a HI HC. unfold exec, step. destruct a as [coin| |].
    + destruct (step_sup w address reader coin st) eqn:E; eauto using copy_facts_sup.
    + destruct (step_bg w reader st) eqn:E; eauto using copy_facts_bg.
    + exact HC.
Qed.

End Induction.

Lemma payload_written_app l1 l2 :
  payload_written (l1 ++ l2) = payload_written l2 ++ payload_written l1.
Proof.
  induction l1 as [|e l1 IH]; simpl; [rewrite app_nil_r; reflexivity|].
  destruct e; auto. rewrite IH, app_assoc. reflexivity.
Qed.

Lemma payload_written_none l :
  count is_write l = 0%nat -> payload_written l = [].
Proof.
  induction l as [|e l IH]; simpl; [reflexivity|].
  destruct e; simpl; auto; discriminate.
Qed.

(** ** Every call can run to its return *)

Section Progress.

Variable w : World.
Variable address : string.
Variable reader : Reader.

(** The background unit is never blocked: not in its receive, which has a
    deadline, and not in its send, for which the slot is free. *)
Lemma bg_progress st :
  Inv w address reader st -> bg st <> BIdle -> bg st <> BDone ->
  exists st', step_bg w reader st = Some st'
              /\ (bg_fuel (bg st') < bg_fuel (bg st))%nat /\ bg st' <> BIdle.
Proof.
  intros (J & HS & HB) Hi Hd. unfold bg_facts, running, spawned in HB.
  unfold step_bg, set_bg.
  destruct (bg st) as [|rest wr|n|buf|v|] eqn:Eb; try congruence.
  - destruct HB as (((_ & c & -> & _) & _) & _).
    destruct rest as [|b rest].
    + destruct (final reader); eexists; (split; [reflexivity|]); simpl; split; (lia || discriminate).
    + destruct (len b =? 0).
      * eexists; (split; [reflexivity|]); simpl; split; (lia || discriminate).
      * destruct (conn_Write w c _ b) as [nw [e|]]; [|destruct (len b =? nw)];
          eexists; (split; [reflexivity|]); simpl; split; (lia || discriminate).
  - destruct HB as (((_ & c & -> & _) & _) & _).
    destruct (conn_SetReadDeadline w c (Now w + updTimeout)) as [c' [e|]];
      eexists; (split; [reflexivity|]); simpl; split; (lia || discriminate).
  - destruct HB as (((_ & c & Hc & _) & _) & _ & _ & _ & Hdl). rewrite Hc.
    specialize (Hdl c Hc).
    assert (Hr : conn_ReadFrom w c buf <> None).
    { unfold conn_ReadFrom. destruct (closed c); [discriminate|].
      rewrite (Hdl eq_refl). destruct (sys_read w); [discriminate|].
      destruct (incoming w) as [[t d]|]; [|discriminate].
      destruct (t <? deadline w); [|discriminate].
      destruct (fill buf d). discriminate. }
    destruct (conn_ReadFrom w c buf) as [[[[b' n] a]|e]|]; [| |congruence];
      eexists; (split; [reflexivity|]); simpl; split; (lia || discriminate).
  - destruct HB as ((_ & -> & _) & _).
    eexists; (split; [reflexivity|]); simpl; split; (lia || discriminate).
Qed.

Lemma drain n : forall st,
  Inv w address reader st -> bg st <> BIdle -> (bg_fuel (bg st) <= n)%nat ->
  finished (run w address reader (repeat Background n) st) = true.
Proof.
  induction n as [|n IH]; intros st HI Hi Hf.
  - simpl. unfold finished. destruct (bg st); simpl in *; try lia; congruence.
  - change (run w address reader (repeat Background (S n)) st)
      with (run w address reader (repeat Background n)
                (exec w address reader st Background)).
    unfold exec, step.
    destruct (Bool.bool_dec (finished st) true) as [Hfin|Hfin].
    + unfold finished in Hfin. destruct (bg st) eqn:Eb; try discriminate.
      unfold step_bg. rewrite Eb.
      apply IH; auto; rewrite Eb; simpl; [discriminate|lia].
    + assert (Hd : bg st <> BDone)
        by (intros E; apply Hfin; unfold finished; rewrite E; reflexivity).
      destruct (bg_progress st HI Hi Hd) as (st' & Hst & Hlt & Hn).
      rewrite Hst.
      apply IH; [exact (Inv_bg _ _ _ _ _ HI Hst) | exact Hn | lia].
Qed.

Lemma background_keeps_sup n : forall st,
  sup (run w address reader (repeat Background n) st) = sup st.
Proof.
  induction n as [|n IH]; intros st; [reflexivity|].
  change (run w address reader (repeat Background (S n)) st)
    with (run w address reader (repeat Background n)
              (exec w address reader st Background)).
  rewrite IH. unfold exec, step.
  destruct (step_bg w reader st) eqn:E; [|reflexivity].
  destruct (step_bg_trace _ _ _ _ E) as (nw & _ & Hs). exact Hs.
Qed.

Lemma select_takes_value st v :
  sup st = SSelect -> doneChan st = Full v ->
  sup (exec w address reader st (Supervisor true)) = SDefer v.
Proof.
  intros Es Hch. unfold exec, step, step_sup. rewrite Es, Hch.
  destruct (done st); reflexivity.
Qed.

Lemma deferred_close_returns st r coin :
  sup st = SDefer r ->
  result (exec w address reader st (Supervisor coin)) = Some r.
Proof. intros Es. unfold exec, step, step_sup. rewrite Es. reflexivity. Qed.

(** Once the background unit has finished, two steps take the call from
    its [select] to its return. *)
Lemma finish_call st :
  Inv w address reader st -> finished st = true -> (3 <= stage (sup st))%nat ->
  exists r, result (run w address reader (repeat (Supervisor true) 2) st) = Some r.
Proof.
  intros (J & HS & HB) Hfin Hst. unfold finished in Hfin.
  destruct (bg st) eqn:Eb; try discriminate. clear Hfin.
  unfold bg_facts in HB. rewrite Eb in HB.
  destruct HB as (_ & _ & v & _ & _ & Hch).
  unfold sup_facts in HS. unfold run. cbn [repeat fold_left].
  destruct (sup st) eqn:Es; simpl in Hst; try lia.
  - destruct HS as (_ & Hr & _).
    destruct Hch as [(Hch & _)|(_ & Hch)]; [|lia].
    exists v. apply deferred_close_returns, select_takes_value; assumption.
  - exists err. apply exec_result, deferred_close_returns, Es.
  - exists err. apply exec_result, exec_result. unfold result. rewrite Es. reflexivity.
Qed.

Lemma can_finish sched :
  exists r,
    result (run w address reader (sched ++ to_the_end reader) init) = Some r.
Proof.
  unfold to_the_end. rewrite app_assoc.
  rewrite (run_app w address reader (sched ++ repeat (Supervisor true) 3)).
  set (st1 := run w address reader (sched ++ repeat (Supervisor true) 3) init).
  rewrite run_app.
  pose proof (Inv_run w address reader (sched ++ repeat (Supervisor true) 3)) as HI.
  pose proof (copy_facts_run w address reader (sched ++ repeat (Supervisor true) 3)) as (Hc & _).
  fold st1 in HI, Hc.
  assert (Hstage : (3 <= stage (sup st1))%nat).
  { unfold st1. rewrite run_app.
    pose proof (stage_run w address reader (repeat (Supervisor true) 3)
                  (run w address reader sched init)) as H.
    change (sup_steps (repeat (Supervisor true) 3)) with 3%nat in H. lia. }
  destruct (bg st1) eqn:Eb.
  1: { (* the call failed before it had a socket *)
    destruct HI as (_ & HS & _). unfold sup_facts, live in HS.
    destruct (sup st1) eqn:Es; simpl in Hstage; try lia.
    - destruct HS as ((Hb & _) & _). congruence.
    - destruct HS as ((Hb & _) & _). congruence.
    - exists err.
      assert (Hres : result st1 = Some err) by (unfold result; rewrite Es; reflexivity).
      apply run_result, run_result, Hres. }
  all: set (k := (List.length (chunks reader) + 4)%nat).
  all: assert (Hfuel : (bg_fuel (bg st1) <= k)%nat).
  all: try (rewrite Eb; unfold k; simpl; lia).
  { rewrite Eb. destruct Hc as (sent & Hch & _).
    unfold k. simpl. rewrite Hch, length_app. lia. }
  all: apply finish_call;
    [ apply Inv_run_from; exact HI
    | apply drain; [exact HI | rewrite Eb; discriminate | exact Hfuel]
    | rewrite background_keeps_sup; exact Hstage ].
Qed.

End Progress.

(** ** Events that happen at most once *)

Section Once.

Variable w : World.
Variable address : string.
Variable reader : Reader.

Lemma once p tr :
  (forall e past, p e = true -> pre w address reader e past -> count p past = 0%nat) ->
  justified w address reader tr -> (count p tr <= 1)%nat.
Proof.
  intros Hp. induction tr as [|e tr IH]; simpl; [lia|].
  intros (P & J). specialize (IH J).
  destruct (p e) eqn:E; [|lia]. rewrite (Hp e tr E P). lia.
Qed.

Lemma send_once tr : justified w address reader tr -> (count is_send tr <= 1)%nat.
Proof. apply once. intros e past; destruct e; simpl; try discriminate; tauto. Qed.

Lemma recv_once tr : justified w address reader tr -> (count is_recv tr <= 1)%nat.
Proof. apply once. intros e past; destruct e; simpl; try discriminate; tauto. Qed.

Lemma return_once tr : justified w address reader tr -> (count is_return tr <= 1)%nat.
Proof. apply once. intros e past; destruct e; simpl; try discriminate; tauto. Qed.

Lemma close_once tr : justified w address reader tr -> (count is_close tr <= 1)%nat.
Proof. apply once. intros e past; destruct e; simpl; try discriminate; tauto. Qed.

(** A history holds a receive from the channel or the cancellation, never
    both. *)
Lemma cancelled_never_receives tr :
  justified w address reader tr -> In EvLogCancelled tr -> count is_recv tr = 0%nat.
Proof.
  intros J Hc. apply count_zero_all. intros e He.
  destruct e; try reflexivity. exfalso.
  destruct (in_split _ _ Hc) as (n1 & p1 & ->).
  destruct (in_app_or _ _ _ He) as [Hn|[Hp|Hp]]; [|discriminate Hp|].
  - destruct (in_split _ _ Hn) as (a & b & ->).
    rewrite <- app_assoc in J. simpl in J.
    destruct (justified_app _ _ _ _ _ _ J) as ((_ & _ & Hz) & _).
    rewrite count_app in Hz. simpl in Hz. lia.
  - destruct (justified_app _ _ _ _ _ _ J) as ((_ & Hz & _) & _).
    pose proof (count_In is_recv _ _ Hp eq_refl). lia.
Qed.

(** After its send the background unit does not touch the socket. *)
Lemma no_use_after_send newer rest v :
  justified w address reader (newer ++ rest) -> In (EvSend v) rest ->
  count uses_conn newer = 0%nat.
Proof.
  intros J Hs. apply count_zero_all. intros e He.
  destruct (uses_conn e) eqn:Hu; [exfalso|reflexivity].
  destruct (in_split _ _ He) as (a & b & ->).
  rewrite <- app_assoc in J. simpl in J.
  destruct (justified_app _ _ _ _ _ _ J) as (P & _).
  assert (Hin : In (EvSend v) (b ++ rest)) by (apply in_or_app; auto).
  pose proof (count_In is_send _ _ Hin eq_refl) as Hc.
  destruct e; simpl in Hu; try discriminate; simpl in P.
  - destruct P as (_ & Hz & _). lia.
  - destruct P as (_ & _ & _ & _ & Hz & _). lia.
  - destruct P as (_ & _ & Hz & _). lia.
Qed.

Lemma in_trace_after more st e :
  In e (trace st) -> In e (trace (run w address reader more st)).
Proof.
  intros H. destruct (run_trace w address reader more st) as (n & ->).
  apply in_or_app. auto.
Qed.

Lemma send_count_bg tr : (count is_send tr <= count is_bg tr)%nat.
Proof. induction tr as [|e tr IH]; simpl; [lia|]. destruct e; simpl; lia. Qed.

Lemma finished_iff_sent sched :
  let st := run w address reader sched init in
  finished st = true <-> count is_send (trace st) = 1%nat.
Proof.
  intros st. pose proof (Inv_run w address reader sched) as (_ & _ & HB).
  fold st in HB. unfold bg_facts, running, finished in *.
  destruct (bg st).
  - destruct HB as (Hz & _). pose proof (send_count_bg (trace st)).
    split; [discriminate|lia].
  - destruct HB as ((_ & _ & Hz & _) & _). split; [discriminate|lia].
  - destruct HB as ((_ & _ & Hz & _) & _). split; [discriminate|lia].
  - destruct HB as ((_ & _ & Hz & _) & _). split; [discriminate|lia].
  - destruct HB as ((_ & _ & Hz & _) & _). split; [discriminate|lia].
  - destruct HB as (_ & Hz & _). tauto.
Qed.

End Once.

(** ** The reply buffer *)

Section Buffer.

Variable w : World.
Variable address : string.
Variable reader : Reader.

Lemma step_sup_buffer coin st st' :
  step_sup w address reader coin st = Some st' -> buffer st' = buffer st.
Proof. unfold step_sup, set_sup. intros H. step_cases H; reflexivity. Qed.

Lemma conn_ReadFrom_fill c buf b n a :
  conn_ReadFrom w c buf = Some (inl (b, n, a)) ->
  exists t d, incoming w = Some (t, d) /\ fill buf d = (b, n).
Proof.
  unfold conn_ReadFrom. intros H.
  destruct (closed c); [discriminate|].
  destruct (sys_read w); [discriminate|].
  destruct (incoming w) as [[t d]|]; [|destruct (rdeadline c); discriminate].
  exists t, d. split; [reflexivity|].
  destruct (rdeadline c) as [dl|]; [destruct (t <? dl); [|discriminate]|];
    destruct (fill buf d) as [b0 n0]; inversion H; reflexivity.
Qed.

Lemma buffer_facts_run sched :
  buffer_facts w (run w address reader sched init).
Proof.
  apply run_ind.
  - intros n [].
  - intros st a (J & HS & HB) Hb. unfold exec, step.
    destruct a as [coin| |]; [| |exact Hb].
    + destruct (step_sup w address reader coin st) as [st'|] eqn:E; [|exact Hb].
      destruct (step_sup_trace _ _ _ _ _ _ E) as (nw & Ht & Hz).
      intros n Hin. rewrite Ht in Hin. rewrite (step_sup_buffer _ _ _ E).
      destruct (in_app_or _ _ _ Hin) as [Hn|Ho]; [|auto].
      pose proof (count_In is_bg _ _ Hn eq_refl). lia.
    + destruct (step_bg w reader st) as [st'|] eqn:E; [|exact Hb].
      unfold step_bg, set_bg in E. unfold bg_facts, running in HB.
      destruct (bg st) as [|rest wr|k|buf|v|] eqn:Eb; step_cases E;
        intros n Hin; simpl in Hin.
      all: repeat match goal with
                  | H : _ = _ \/ _ |- _ => destruct H as [H|H]; [try discriminate H|]
                  end.
      all: try solve [apply Hb; assumption].
      * exfalso. destruct HB as (_ & _ & _ & Hz).
        pose proof (count_In is_read _ _ Hin eq_refl). lia.
      * exfalso. destruct HB as (_ & _ & _ & Hz).
        pose proof (count_In is_read _ _ Hin eq_refl). lia.
      * inversion Hin; subst. simpl. eapply conn_ReadFrom_fill.
        destruct HB as (_ & -> & _). eassumption.
      * exfalso. destruct HB as (_ & _ & _ & Hz & _).
        pose proof (count_In is_read _ _ Hin eq_refl). lia.
Qed.

End Buffer.

(** ** A payload source without bytes *)


(** A write that failed or was short has ended [io.Copy] with its error. *)
Lemma failed_write_copied w address reader sched b n ew e :
  In (EvWrite b n ew) (trace (run w address reader sched init)) ->
  ew = Some e \/ (ew = None /\ len b <> n /\ e = ErrShortWrite) ->
  exists m, In (EvCopied m (Some e)) (trace (run w address reader sched init)).
Proof.
  revert b n ew e.
  apply (run_ind w address reader
           (fun st => forall b n ew e,
              In (EvWrite b n ew) (trace st) ->
              ew = Some e \/ (ew = None /\ len b <> n /\ e = ErrShortWrite) ->
              exists m, In (EvCopied m (Some e)) (trace st))).
  - intros b n ew e [].
  - intros st a _ Hp. unfold exec, step. destruct a as [coin| |].
    + destruct (step_sup w address reader coin st) as [st'|] eqn:E; [|exact Hp].
      destruct (step_sup_trace _ _ _ _ _ _ E) as (nw & -> & Hz).
      intros b n ew e Hin He. apply in_app_or in Hin. destruct Hin as [Hin|Hin].
      * pose proof (count_In is_bg _ _ Hin eq_refl). lia.
      * destruct (Hp b n ew e Hin He) as (m & Hm). exists m.
        apply in_or_app. right. exact Hm.
    + destruct (step_bg w reader st) as [st'|] eqn:E; [|exact Hp].
      unfold step_bg, set_bg in E.
      destruct (bg st) as [|todo wr|k|buf|v|] eqn:Eb;
        [discriminate| | | | |destruct (conn st); discriminate].
      2-4: step_cases E; simpl; intros xb xn xew xe Hin He;
        repeat (destruct Hin as [Hin|Hin]; [discriminate Hin|]);
        destruct (Hp xb xn xew xe Hin He) as (m & Hm); exists m; auto 10.
      step_cases E; simpl; intros xb xn xew xe Hin He;
        repeat (destruct Hin as [Hin|Hin];
                [ first
                    [ discriminate Hin
                    | injection Hin as <- <- <-;
                      destruct He as [He|(He & Hne & ->)];
                      first
                        [ discriminate He
                        | injection He as <-; eexists; left; reflexivity
                        | eexists; left; reflexivity
                        | exfalso; apply Hne;
                          match goal with H : (len _ =? _) = true |- _ =>
                            apply Z.eqb_eq in H; exact H end ] ]
                | ]);
        destruct (Hp xb xn xew xe Hin He) as (m & Hm); exists m; auto 10.
    + exact Hp.
Qed.

(** ** The claims *)

(** C1 (as amended).  A call that completes with the success outcome gives
    its caller a nil error and nothing else.  The count of the bytes received
    (the length of the datagram, at most 1024) and the address of the sender
    (the dialed peer) are written to the trace log only. *)
Theorem success_returns_nil_and_logs_reply w address reader sched :
  let st := run w address reader sched init in
  result st = Some None ->
  exists t d raddr,
    incoming w = Some (t, d) /\ t < Now w + updTimeout
    /\ ResolveUDPAddr w address = inl raddr
    /\ In (EvLogReceived (Z.min (len d) udpBufferSize) raddr) (trace st)
    /\ In (EvReturn None) (trace st).
Proof.
  intros st Hr.
  pose proof (Inv_run w address reader sched) as (J & _). fold st in J.
  destruct (returned_origin w address reader sched None Hr) as (Hret & [H|[H|[H|H]]]).
  - destruct H as (msg & _ & H & _). discriminate H.
  - destruct H as (ra & en & _ & _ & H & _). discriminate H.
  - fold st in H, Hret. destruct H as (_ & Hs & _).
    destruct (sent_value _ _ _ _ _ J Hs) as (n & a & t & d & Hl & _ & Ha & Hi & Ht & ->).
    exists t, d, a. auto.
  - destruct H as (_ & _ & H & _). discriminate H.
Qed.

Lemma success_witness :
  let st := run Scenario.loopback "127.0.0.1:9999" Scenario.payload
                Scenario.undisturbed init in
  result st = Some None /\ In (EvLogReceived 4 Scenario.peer) (trace st).
Proof.
  intros st. split; [reflexivity|].
  destruct (success_returns_nil_and_logs_reply Scenario.loopback "127.0.0.1:9999"
              Scenario.payload Scenario.undisturbed eq_refl)
    as (t & d & raddr & Hi & _ & Ha & Hl & _).
  inversion Hi; subst. inversion Ha; subst. exact Hl.
Defined.

(** C1, the claim as stated fails: two calls succeed, one receives 4 bytes
    from 127.0.0.1:9999 and the other 7 bytes from 10.0.0.2:7090, and both
    give their caller the same value, nil; no reading of the result can give
    back the count and the sender of both. *)
Lemma success_result_carries_no_reply :
  let st1 := run (Scenario.echo Scenario.pong) "127.0.0.1:9999" Scenario.payload
                 Scenario.undisturbed init in
  let st2 := run (Scenario.echo Scenario.report) "10.0.0.2:7090" Scenario.payload
                 Scenario.undisturbed init in
  result st1 = Some None /\ In (EvLogReceived 4 Scenario.peer) (trace st1)
  /\ result st2 = Some None /\ In (EvLogReceived 7 Scenario.other) (trace st2)
  /\ ~ exists decode : option goerror -> Z * UDPAddr,
         decode (result st1) = (4, Scenario.peer)
         /\ decode (result st2) = (7, Scenario.other).
Proof.
  intros st1 st2.
  split; [reflexivity|]. split; [vm_compute; tauto|].
  split; [reflexivity|]. split; [vm_compute; tauto|].
  intros (decode & H1 & H2).
  change (result st1) with (Some (@None error)) in H1.
  change (result st2) with (Some (@None error)) in H2.
  rewrite H1 in H2. discriminate H2.
Qed.

(** C2 (as amended).  The socket is closed at most once, and only by the
    deferred close that ends the call: a call that has returned either never
    had a socket (resolve or dial failed) or has closed it, and a closed
    socket means that the call has returned.  When the outcome was taken from
    the channel, the background unit had sent before the close and does not
    use the socket after it.  The close does not wait for the background
    unit: at the deferred close the next step of the call closes the socket
    and returns, wherever the background unit stands; what the background
    unit then does on the socket fails with [net.ErrClosed]. *)
Theorem socket_released_at_return w address reader sched :
  let st := run w address reader sched init in
  let tr := trace st in
  (count is_close tr <= 1)%nat
  /\ (forall r, result st = Some r ->
        (conn st = None /\ early w address r tr)
        \/ (exists c, conn st = Some c /\ closed c = true
                      /\ count is_close tr = 1%nat))
  /\ (forall c, conn st = Some c -> closed c = true -> exists r, result st = Some r)
  /\ (forall newer past v,
        tr = newer ++ EvClose :: past -> In (EvRecv v) past ->
        In (EvSend v) past /\ count uses_conn newer = 0%nat)
  /\ (forall r coin,
        sup st = SDefer r ->
        let st' := exec w address reader st (Supervisor coin) in
        result st' = Some r /\ bg st' = bg st
        /\ exists c, conn st' = Some c /\ closed c = true)
  /\ (forall newer past,
        tr = newer ++ EvClose :: past ->
        (forall b n err, In (EvWrite b n err) newer ->
                         err = Some (OpError "write" ErrClosed))
        /\ (forall t err, In (EvSetReadDeadline t err) newer ->
                          err = Some (OpError "set" ErrClosed))
        /\ (forall n err, In (EvReadFrom n err) newer ->
                          err = Some (OpError "read" ErrClosed))).
Proof.
  intros st tr. pose proof (Inv_run w address reader sched) as (J & HS & HB).
  fold st in J, HS, HB. fold tr in J.
  split; [eapply close_once; eauto|].
  split.
  { intros r Hr. unfold result, sup_facts in *. destruct (sup st); try discriminate.
    inversion Hr; subst.
    destruct HS as (_ & _ & [(_ & Hc & He)|(_ & Hn & (c & Hc & Hcl) & _)]); eauto 10. }
  split.
  { intros c Hc Hcl. unfold result, sup_facts, live in *.
    destruct (sup st); eauto; exfalso.
    - destruct HS as (_ & Hn & _). congruence.
    - destruct HS as (_ & _ & Hn & _). congruence.
    - destruct HS as (ra & _ & _ & _ & Hn & _). rewrite Hn in Hc.
      inversion Hc; subst. simpl in Hcl. discriminate Hcl.
    - destruct HS as ((_ & (c' & Hc' & Ho) & _) & _). congruence.
    - destruct HS as ((_ & (c' & Hc' & Ho) & _) & _). congruence. }
  split.
  { intros newer past v Heq Hr. rewrite Heq in J.
    destruct (justified_app _ _ _ _ _ _ J) as (_ & Jp).
    destruct (justified_past _ _ _ _ _ Jp Hr) as (p & (Hs & _) & _ & Hi).
    split; [auto|].
    apply (no_use_after_send _ _ _ _ _ v J). right. auto. }
  split.
  { intros r coin Hs st'.
    assert (E : st' = {| sup := SReturned r; bg := bg st;
                         conn := option_map conn_Close (conn st);
                         doneChan := doneChan st; done := done st;
                         buffer := buffer st;
                         trace := EvReturn r :: EvClose :: trace st |}).
    { unfold st', exec, step, step_sup. rewrite Hs. reflexivity. }
    rewrite E. unfold sup_facts, live in HS. rewrite Hs in HS.
    destruct HS as ((_ & (c & Hc & _) & _) & _). simpl. rewrite Hc. simpl.
    repeat split. eexists. split; reflexivity. }
  intros newer past Heq. rewrite Heq in J.
  assert (Hcl : forall l, (1 <= count is_close (l ++ EvClose :: past))%nat).
  { intros l. rewrite count_app. simpl. lia. }
  split; [|split].
  - intros b n err Hin. destruct (in_split _ _ Hin) as (n1 & n2 & E).
    rewrite E, <- app_assoc in J. simpl in J.
    destruct (justified_app _ _ _ _ _ _ J) as ((_ & _ & _ & _ & Hf) & _).
    apply Hf, Hcl.
  - intros t err Hin. destruct (in_split _ _ Hin) as (n1 & n2 & E).
    rewrite E, <- app_assoc in J. simpl in J.
    destruct (justified_app _ _ _ _ _ _ J) as ((_ & _ & _ & _ & _ & _ & Hf) & _).
    apply Hf, Hcl.
  - intros n err Hin. destruct (in_split _ _ Hin) as (n1 & n2 & E).
    rewrite E, <- app_assoc in J. simpl in J.
    destruct (justified_app _ _ _ _ _ _ J) as ((_ & _ & _ & _ & Hf & _) & _).
    apply Hf, Hcl.
Qed.

Lemma socket_released_witness :
  let st := run Scenario.loopback "127.0.0.1:9999" Scenario.payload
                Scenario.undisturbed init in
  (exists c, conn st = Some c /\ closed c = true /\ count is_close (trace st) = 1%nat)
  /\ In (EvSend None) (skipn 2 (trace st)).
Proof.
  intros st.
  pose proof (socket_released_at_return Scenario.loopback "127.0.0.1:9999"
                Scenario.payload Scenario.undisturbed) as (_ & H1 & _ & H3 & _).
  split.
  - destruct (H1 None eq_refl) as [(Hc & _)|H]; [discriminate Hc|exact H].
  - apply (H3 [EvReturn None] (skipn 2 (trace st)) None eq_refl).
    vm_compute. tauto.
Defined.

(** C2, the claim as stated fails: the context is cancelled as soon as the
    background unit is started.  The call returns the cancellation error and
    closes the socket while the background unit has not begun its write; the
    write comes after the close and meets a closed socket. *)
Lemma socket_closed_before_background_finishes :
  let st := run Scenario.loopback "127.0.0.1:9999" Scenario.payload
                Scenario.cancelled_at_once init in
  result st = Some (Some (ctx_Err Canceled))
  /\ conn st = Some {| remote := Scenario.peer; rdeadline := None; closed := true |}
  /\ finished st = false
  /\ bg st = BCopy [Scenario.ping] 0
  /\ trace st = [EvReturn (Some (ctx_Err Canceled)); EvClose; EvLogCancelled;
                 EvGo; EvDial Scenario.peer; EvResolve "127.0.0.1:9999"]
  /\ trace (run Scenario.loopback "127.0.0.1:9999" Scenario.payload [Background] st)
     = EvCopied 0 (Some (OpError "write" ErrClosed))
       :: EvWrite Scenario.ping 0 (Some (OpError "write" ErrClosed))
       :: trace st.
Proof. repeat split. Qed.

(** C3 (as amended).  When the supervising call is at its [select], the
    context is done and the channel holds no value, the call takes the
    cancellation case: its next step yields the context's error and leaves
    the background unit where it is, and the step after returns that error,
    so the call waits neither for the background unit nor for its read
    deadline.  Whatever runs afterwards, the outcome stays the cancellation
    error, the channel is never read, and a value that the background unit
    sends later stays in the channel. *)
Theorem cancellation_first w address reader sched coin :
  let st := run w address reader sched init in
  sup st = SSelect -> done st = true -> doneChan st = Empty ->
  let st1 := exec w address reader st (Supervisor coin) in
  sup st1 = SDefer (Some (ctx_Err (reason w)))
  /\ bg st1 = bg st
  /\ (forall coin',
         let st2 := exec w address reader st1 (Supervisor coin') in
         result st2 = Some (Some (ctx_Err (reason w))) /\ bg st2 = bg st)
  /\ (forall more,
         let st2 := run w address reader more st1 in
         (result st2 = None \/ result st2 = Some (Some (ctx_Err (reason w))))
         /\ count is_recv (trace st2) = 0%nat
         /\ (forall v, In (EvSend v) (trace st2) -> doneChan st2 = Full v)).
Proof.
  intros st Hs Hd Hch st1.
  assert (E1 : st1 = set_sup st (SDefer (Some (ctx_Err (reason w)))) [EvLogCancelled]).
  { unfold st1, exec, step, step_sup. rewrite Hs, Hd, Hch. reflexivity. }
  split; [rewrite E1; reflexivity|].
  split; [rewrite E1; reflexivity|].
  split.
  { intros coin'. rewrite E1. split; reflexivity. }
  intros more st2.
  assert (E2 : st2 = run w address reader (sched ++ Supervisor coin :: more) init).
  { unfold st2, st1, st. rewrite run_app. reflexivity. }
  pose proof (Inv_run w address reader (sched ++ Supervisor coin :: more)) as (J & HS & HB).
  rewrite <- E2 in J, HS, HB.
  assert (Hc : In EvLogCancelled (trace st2)).
  { apply in_trace_after. rewrite E1. left. reflexivity. }
  pose proof (cancelled_never_receives _ _ _ _ J Hc) as Hr.
  split; [|split; [exact Hr|]].
  - unfold result. unfold sup_facts, choice in HS.
    destruct (sup st2); auto. right.
    destruct HS as (_ & _ & [(_ & _ & He)|(_ & _ & _ & [Hx|Hx])]).
    + exfalso. destruct He as [(msg & _ & _ & Ht)|(ra & en & _ & _ & _ & Ht)];
        rewrite Ht in Hc; simpl in Hc; intuition discriminate.
    + exfalso. lia.
    + destruct Hx as (_ & _ & _ & -> & _). reflexivity.
  - intros v Hv. unfold bg_facts, running in HB.
    pose proof (count_In is_send _ _ Hv eq_refl) as Hn.
    destruct (bg st2).
    + destruct HB as (Hz & _). pose proof (send_count_bg (trace st2)). lia.
    + destruct HB as ((_ & _ & Hz & _) & _). lia.
    + destruct HB as ((_ & _ & Hz & _) & _). lia.
    + destruct HB as ((_ & _ & Hz & _) & _). lia.
    + destruct HB as ((_ & _ & Hz & _) & _). lia.
    + destruct HB as (_ & H1 & v' & Hv' & _ & [(Hf & _)|(_ & Hx)]); [|lia].
      assert (Heq : EvSend v = EvSend v')
        by (apply (count_unique is_send _ _ (trace st2)); auto; lia).
      inversion Heq; subst. exact Hf.
Qed.

Lemma cancellation_first_witness :
  let st := run Scenario.loopback "127.0.0.1:9999" Scenario.payload
                [Scenario.Sup; Scenario.Sup; Scenario.Sup; Scenario.Bg; Scenario.Bg;
                 Scenario.Bg; CancelSignal] init in
  bg st = BRead zeroes
  /\ result (run Scenario.loopback "127.0.0.1:9999" Scenario.payload
                 [Scenario.Sup; Scenario.Sup] st)
     = Some (Some (errorString "context canceled"))
  /\ doneChan (run Scenario.loopback "127.0.0.1:9999" Scenario.payload
                 [Scenario.Sup; Scenario.Bg; Scenario.Bg; Scenario.Sup] st)
     = Full None.
Proof.
  intros st.
  pose proof (cancellation_first Scenario.loopback "127.0.0.1:9999" Scenario.payload
                [Scenario.Sup; Scenario.Sup; Scenario.Sup; Scenario.Bg; Scenario.Bg;
                 Scenario.Bg; CancelSignal] true eq_refl eq_refl eq_refl)
    as (_ & _ & H2 & H3).
  split; [reflexivity|]. split.
  - exact (proj1 (H2 true)).
  - apply (proj2 (proj2 (H3 [Scenario.Bg; Scenario.Bg; Scenario.Sup]))).
    vm_compute. tauto.
Defined.

(** C3, the claim as stated fails: the context is done before the call
    begins, so the cancellation resolves before the channel delivers anything.
    The scheduler lets the background unit run to its end before the call
    reaches its [select]; both cases are then ready, Go takes either, and
    when it takes the channel the call returns the value received, nil, and
    not the cancellation error. *)
Lemma cancelled_first_yet_value_returned :
  let sched := [CancelSignal; Scenario.Sup; Scenario.Sup; Scenario.Sup;
                Scenario.Bg; Scenario.Bg; Scenario.Bg; Scenario.Bg; Scenario.Bg] in
  let s0 := run Scenario.loopback "127.0.0.1:9999" Scenario.payload
                [CancelSignal] init in
  let st := run Scenario.loopback "127.0.0.1:9999" Scenario.payload sched init in
  done s0 = true /\ doneChan s0 = NoChan
  /\ sup st = SSelect /\ done st = true /\ doneChan st = Full None
  /\ result (run Scenario.loopback "127.0.0.1:9999" Scenario.payload
                 [Supervisor true; Scenario.Sup] st) = Some None
  /\ result (run Scenario.loopback "127.0.0.1:9999" Scenario.payload
                 [Supervisor false; Scenario.Sup] st)
     = Some (Some (ctx_Err Canceled)).
Proof. repeat split. Qed.

(** C4 (as amended).  Every call can run to its return and returns one
    outcome, which never changes afterwards.  The channel is written at most
    once, and exactly once when the background unit has run to its end.  It
    is read at most once: exactly once when the returned outcome is the value
    taken from the channel, and not at all when the call returns the
    cancellation error or fails in resolve or dial. *)
Theorem one_outcome_channel_at_most_once w address reader sched :
  let st := run w address reader sched init in
  let tr := trace st in
  (exists r, result (run w address reader (sched ++ to_the_end reader) init) = Some r)
  /\ (count is_return tr <= 1)%nat
  /\ (forall r, result st = Some r ->
        count is_return tr = 1%nat /\ In (EvReturn r) tr
        /\ forall more, result (run w address reader more st) = Some r)
  /\ (count is_send tr <= 1)%nat
  /\ (finished st = true <-> count is_send tr = 1%nat)
  /\ (count is_recv tr <= 1)%nat
  /\ (forall r, result st = Some r ->
        (count is_recv tr = 1%nat /\ In (EvRecv r) tr /\ In (EvSend r) tr)
        \/ (count is_recv tr = 0%nat
            /\ (r = Some (ctx_Err (reason w)) /\ In EvLogCancelled tr
                \/ early w address r tr))).
Proof.
  intros st tr. pose proof (Inv_run w address reader sched) as (J & HS & HB).
  fold st in J, HS, HB. fold tr in J.
  split; [apply can_finish|].
  split; [eapply return_once; eauto|].
  split.
  { intros r Hr. split; [|split].
    - unfold result, sup_facts in *. destruct (sup st); try discriminate.
      inversion Hr; subst. tauto.
    - apply (returned_origin w address reader sched r Hr).
    - intros more. apply run_result, Hr. }
  split; [eapply send_once; eauto|].
  split; [apply finished_iff_sent|].
  split; [eapply recv_once; eauto|].
  intros r Hr.
  destruct (returned_origin w address reader sched r Hr) as (_ & [H|[H|[H|H]]]).
  - fold st tr in H. destruct H as (msg & Hres & -> & Ht). right.
    split; [rewrite Ht; reflexivity|]. right. left. eauto.
  - fold st tr in H. destruct H as (raddr & errno & Hres & Hd & -> & Ht). right.
    split; [rewrite Ht; reflexivity|]. right. right. eauto 10.
  - fold st tr in H. left. tauto.
  - fold st tr in H. right. tauto.
Qed.

Lemma one_outcome_witness :
  let st := run Scenario.loopback "127.0.0.1:9999" Scenario.payload
                Scenario.undisturbed init in
  result st = Some None
  /\ count is_recv (trace st) = 1%nat /\ In (EvSend None) (trace st).
Proof.
  intros st. split; [reflexivity|].
  destruct (one_outcome_channel_at_most_once Scenario.loopback "127.0.0.1:9999"
              Scenario.payload Scenario.undisturbed)
    as (_ & _ & _ & _ & _ & _ & H).
  destruct (H None eq_refl) as [(H1 & _ & H2)|(_ & [(H1 & _)|H1])].
  - split; assumption.
  - discriminate H1.
  - exfalso. destruct H1 as [(msg & H1 & _)|(ra & en & _ & H1 & _)]; discriminate H1.
Defined.

(** C4, the claim as stated fails: the context is cancelled as soon as the
    background unit is started; the call returns the cancellation error and
    closes the socket, the background unit then runs to its end and writes
    its error to the channel.  The channel has been written once and is never
    read, whatever happens later. *)
Lemma channel_never_read_after_cancellation :
  let st := run Scenario.loopback "127.0.0.1:9999" Scenario.payload
                (Scenario.cancelled_at_once ++ [Background; Background]) init in
  result st = Some (Some (ctx_Err Canceled))
  /\ finished st = true
  /\ doneChan st = Full (Some (OpError "write" ErrClosed))
  /\ count is_send (trace st) = 1%nat
  /\ forall more,
       count is_recv
         (trace (run Scenario.loopback "127.0.0.1:9999" Scenario.payload more st))
       = 0%nat.
Proof.
  intros st. repeat split; try reflexivity.
  intros more. unfold st. rewrite <- run_app.
  eapply cancelled_never_receives; [apply Inv_run|].
  rewrite run_app. apply in_trace_after. vm_compute. tauto.
Qed.

(** C5.  In the history of every run: when the read deadline is set,
    [io.Copy] has returned without error before, all the bytes of the
    payload have been written to the socket before, and no write follows;
    when the receive is made, [io.Copy] has returned without error and the
    deadline has been armed before; and when [io.Copy] returns an error, no
    deadline is ever set, no receive is ever made, and the error is sent on
    the channel: it has been sent, or it is what the background unit's next
    step sends.  A write that fails, or is short, ends [io.Copy] with its
    error at once, and the next step of the background unit puts this error
    on the channel and is its last; every failed write of a history has
    ended [io.Copy] in this way. *)
Theorem background_order w address reader sched :
  let st := run w address reader sched init in
  (forall newer past t err,
      trace st = newer ++ EvSetReadDeadline t err :: past ->
      In (EvCopied (len (List.concat (chunks reader))) None) past
      /\ payload_written past = List.concat (chunks reader)
      /\ count is_write newer = 0%nat)
  /\ (forall newer past n err,
         trace st = newer ++ EvReadFrom n err :: past ->
         (exists m, In (EvCopied m None) past)
         /\ In (EvSetReadDeadline (Now w + updTimeout) None) past)
  /\ (forall n e,
         In (EvCopied n (Some e)) (trace st) ->
         count is_arm (trace st) = 0%nat /\ count is_read (trace st) = 0%nat
         /\ (In (EvSend (Some e)) (trace st)
             \/ (bg st = BSend (Some e)
                 /\ trace (exec w address reader st Background)
                    = EvSend (Some e) :: trace st)))
  /\ (forall b rest written c n ew e,
         bg st = BCopy (b :: rest) written -> conn st = Some c -> b <> [] ->
         conn_Write w c written b = (n, ew) ->
         ew = Some e \/ (ew = None /\ len b <> n /\ e = ErrShortWrite) ->
         let st1 := exec w address reader st Background in
         let st2 := exec w address reader st1 Background in
         (exists m, trace st1 = EvCopied m (Some e) :: EvWrite b n ew :: trace st)
         /\ bg st1 = BSend (Some e)
         /\ trace st2 = EvSend (Some e) :: trace st1
         /\ doneChan st2 = Full (Some e)
         /\ finished st2 = true)
  /\ (forall b n ew e,
         In (EvWrite b n ew) (trace st) ->
         ew = Some e \/ (ew = None /\ len b <> n /\ e = ErrShortWrite) ->
         exists m, In (EvCopied m (Some e)) (trace st)).
Proof.
  intros st. pose proof (Inv_run w address reader sched) as (J & HS & HB).
  pose proof (copy_facts_run w address reader sched) as (_ & _ & _ & Hok).
  fold st in J, HS, HB, Hok. split; [|split; [|split; [|split]]].
  4: { intros b rest written c n ew e Eb Ec Hb Hw He.
    unfold bg_facts, running in HB. rewrite Eb in HB.
    destruct HB as ((_ & Hch & _) & _).
    assert (E0 : (len b =? 0) = false)
      by (apply Z.eqb_neq; destruct b; [congruence|unfold len; simpl; lia]).
    assert (E1 : exists m,
               exec w address reader st Background
               = set_bg st (BSend (Some e)) [EvCopied m (Some e); EvWrite b n ew]).
    { unfold exec, step, step_bg. rewrite Eb, Ec, E0, Hw.
      destruct He as [->|(-> & Hne & ->)]; [eexists; reflexivity|].
      replace (len b =? n) with false by (symmetry; apply Z.eqb_neq; exact Hne).
      eexists; reflexivity. }
    destruct E1 as (m & E1). cbv zeta. rewrite E1.
    split; [exists m; reflexivity|]. split; [reflexivity|].
    unfold exec, step, step_bg, set_bg, finished. simpl. rewrite Hch, Ec. simpl.
    repeat split; reflexivity. }
  4: { intros b n ew e Hin He.
    exact (failed_write_copied w address reader sched b n ew e Hin He). }
  - intros newer past t err Heq. rewrite Heq in J.
    destruct (justified_app _ _ _ _ _ _ J) as ((_ & (n & Hn) & _) & _).
    assert (Hnw : count is_write newer = 0%nat).
    { apply count_zero_all. intros e He.
      destruct e; try reflexivity. exfalso.
      destruct (in_split _ _ He) as (n1 & n2 & ->).
      rewrite <- app_assoc in J. simpl in J.
      destruct (justified_app _ _ _ _ _ _ J) as ((Hz & _) & _).
      assert (Hin : In (EvCopied n None) (n2 ++ EvSetReadDeadline t err :: past))
        by (apply in_or_app; right; right; exact Hn).
      pose proof (count_In is_copied _ _ Hin eq_refl). lia. }
    destruct (Hok n) as (_ & -> & Hpw).
    { rewrite Heq. apply in_or_app. right. right. exact Hn. }
    rewrite Heq, payload_written_app in Hpw. simpl in Hpw.
    rewrite (payload_written_none _ Hnw), app_nil_r in Hpw. auto.
  - intros newer past n err Heq. rewrite Heq in J.
    destruct (justified_app _ _ _ _ _ _ J) as ((Ha & _) & J').
    split; [|exact Ha]. eapply arm_needs_copy; eauto.
  - intros n e Hc. unfold bg_facts, running in HB.
    destruct (bg st) eqn:Eb.
    + exfalso. destruct HB as (Hz & _).
      pose proof (count_In is_bg _ _ Hc eq_refl). lia.
    + exfalso. destruct HB as (_ & Hz & _).
      pose proof (count_In is_copied _ _ Hc eq_refl). lia.
    + exfalso. destruct HB as (_ & Hm & _). eapply copy_failed_only; eauto.
    + exfalso. destruct HB as (_ & _ & Ha & _).
      destruct (arm_needs_copy _ _ _ _ _ _ J Ha) as (m & Hm).
      eapply copy_failed_only; eauto.
    + destruct HB as ((_ & Hch & _) & Hs).
      destruct (copy_failed_sent _ _ _ _ _ _ _ J Hc Hs) as (-> & Ha & Hr).
      repeat split; auto. right. split; [reflexivity|].
      unfold exec, step, step_bg. rewrite Eb, Hch. destruct (conn st); reflexivity.
    + destruct HB as (_ & _ & v & Hv & Hs & _).
      destruct (copy_failed_sent _ _ _ _ _ _ _ J Hc Hs) as (-> & Ha & Hr).
      auto.
Qed.

Lemma background_order_witness :
  let st := run Scenario.loopback "127.0.0.1:9999" Scenario.payload
                Scenario.undisturbed init in
  let refused := run Faults.closed_port "127.0.0.1:9999" Faults.twice
                     [Supervisor true; Supervisor true; Supervisor true; Background]
                     init in
  In (EvCopied 4 None) (skipn 7 (trace st))
  /\ payload_written (skipn 7 (trace st)) = Scenario.ping
  /\ bg refused = BCopy [Scenario.ping] 4
  /\ doneChan (exec Faults.closed_port "127.0.0.1:9999" Faults.twice
                 (exec Faults.closed_port "127.0.0.1:9999" Faults.twice
                    refused Background) Background)
     = Full (Some (OpError "write" (Errno 111))).
Proof.
  intros st refused.
  destruct (background_order Scenario.loopback "127.0.0.1:9999" Scenario.payload
              Scenario.undisturbed) as (H & _).
  destruct (H (firstn 6 (trace st)) (skipn 7 (trace st)) 1000005000 None eq_refl)
    as (H1 & H2 & _).
  split; [exact H1|]. split; [exact H2|]. split; [reflexivity|].
  destruct (background_order Faults.closed_port "127.0.0.1:9999" Faults.twice
              [Supervisor true; Supervisor true; Supervisor true; Background])
    as (_ & _ & _ & H4 & _).
  fold refused in H4.
  destruct (H4 Scenario.ping [] 4
              {| remote := Scenario.peer; rdeadline := None; closed := false |}
              0 (Some (OpError "write" (Errno 111))) (OpError "write" (Errno 111))
              eq_refl eq_refl) as (_ & _ & _ & H5 & _).
  - discriminate.
  - reflexivity.
  - left. reflexivity.
  - exact H5.
Defined.

(** C6.  A call whose address does not resolve returns the resolution error
    and holds nothing: no socket, no channel, no background unit, no write or
    any other event of the background unit; its whole history is the failed
    resolve and the return.  A call whose dial fails returns the dial error
    in the same way, and its whole history is the resolve, the failed dial
    and the return. *)
Theorem early_failure_holds_nothing w address reader sched :
  let st := run w address reader sched init in
  (forall msg, ResolveUDPAddr w address = inr msg ->
     conn st = None /\ bg st = BIdle /\ doneChan st = NoChan
     /\ count is_bg (trace st) = 0%nat
     /\ ((1 <= sup_steps sched)%nat ->
         result st = Some (Some (AddrError msg))
         /\ trace st = [EvReturn (Some (AddrError msg)); EvResolve address]))
  /\ (forall raddr errno,
        ResolveUDPAddr w address = inl raddr -> DialUDP w raddr = Some errno ->
        conn st = None /\ bg st = BIdle /\ doneChan st = NoChan
        /\ count is_bg (trace st) = 0%nat
        /\ ((2 <= sup_steps sched)%nat ->
            result st = Some (Some (OpError "dial" (Errno errno)))
            /\ trace st = [EvReturn (Some (OpError "dial" (Errno errno)));
                           EvDial raddr; EvResolve address])).
Proof.
  intros st.
  pose proof (Inv_run w address reader sched) as (J & HS & HB).
  pose proof (stage_run w address reader sched init) as Hstage.
  fold st in J, HS, HB, Hstage. cbn [init sup stage Nat.add] in Hstage.
  split.
  - intros msg Hres.
    assert (Hw : forall raddr, ResolveUDPAddr w address = inl raddr ->
                         DialUDP w raddr <> None) by (intros raddr Hr; congruence).
    destruct (no_socket w address reader sched Hw) as (Hc & Hb & Hch & Hn & He).
    fold st in Hc, Hb, Hch, Hn, He. repeat (split; [assumption|]).
    intros Hsteps. unfold sup_facts, live in HS. unfold result in *.
    destruct (sup st) eqn:Es; cbn [stage] in Hstage; try lia.
    + destruct HS as (_ & Hr & _). congruence.
    + destruct HS as (raddr & _ & Hr & _). congruence.
    + destruct HS as ((_ & (c & Hc' & _) & _) & _). congruence.
    + destruct HS as ((_ & (c & Hc' & _) & _) & _). congruence.
    + destruct (He err eq_refl) as [(m & Hm & -> & Ht)|(raddr & errno & Hr & _)];
        [|congruence].
      assert (m = msg) by congruence. subst m. auto.
  - intros raddr errno Hres Hdial.
    assert (Hw : forall raddr', ResolveUDPAddr w address = inl raddr' ->
                          DialUDP w raddr' <> None).
    { intros raddr' Hr. assert (raddr' = raddr) by congruence. subst. congruence. }
    destruct (no_socket w address reader sched Hw) as (Hc & Hb & Hch & Hn & He).
    fold st in Hc, Hb, Hch, Hn, He. repeat (split; [assumption|]).
    intros Hsteps. unfold sup_facts, live in HS. unfold result in *.
    destruct (sup st) eqn:Es; cbn [stage] in Hstage; try lia.
    + destruct HS as (raddr' & _ & _ & _ & Hc' & _). congruence.
    + destruct HS as ((_ & (c & Hc' & _) & _) & _). congruence.
    + destruct HS as ((_ & (c & Hc' & _) & _) & _). congruence.
    + destruct (He err eq_refl) as [(m & Hm & _)|(raddr' & errno' & Hr & Hd & -> & Ht)];
        [congruence|].
      assert (raddr' = raddr) by congruence. subst raddr'.
      assert (errno' = errno) by congruence. subst errno'. auto.
Qed.

Lemma early_failure_witness :
  (let st := run Scenario.loopback "keba" Scenario.payload Scenario.undisturbed init in
   result st = Some (Some (AddrError "missing port in address"))
   /\ trace st = [EvReturn (Some (AddrError "missing port in address")); EvResolve "keba"])
  /\ (let st := run Scenario.unreachable "127.0.0.1:9999" Scenario.payload
                    Scenario.undisturbed init in
      result st = Some (Some (OpError "dial" (Errno 101)))
      /\ conn st = None).
Proof.
  split.
  - apply (proj1 (early_failure_holds_nothing Scenario.loopback "keba"
                    Scenario.payload Scenario.undisturbed) "missing port in address" eq_refl).
    simpl. lia.
  - destruct (proj2 (early_failure_holds_nothing Scenario.unreachable "127.0.0.1:9999"
                    Scenario.payload Scenario.undisturbed) Scenario.peer 101 eq_refl eq_refl)
      as (Hc & _ & _ & _ & Hr).
    split; [|exact Hc]. apply Hr. simpl. lia.
Defined.

(** C7.  The reply buffer has 1024 bytes and the timeout is one second.  The
    receive is made into a buffer of 1024 bytes on a socket whose read
    deadline is the time at which the deadline was computed plus one second,
    and every deadline set is that one.  A receive that succeeds has taken a
    datagram that came before the deadline; the count it reports is the
    length of the datagram or 1024, whichever is less, and the buffer holds
    that many bytes of the datagram from its start: a longer datagram is cut
    to 1024 bytes and is no error. *)
Theorem reply_buffer_and_deadline w address reader sched :
  let st := run w address reader sched init in
  udpBufferSize = 1024 /\ updTimeout = 1000000000
  /\ (forall buf, bg st = BRead buf ->
        len buf = 1024
        /\ forall c, conn st = Some c -> closed c = false ->
                     rdeadline c = Some (Now w + 1000000000))
  /\ (forall t err, In (EvSetReadDeadline t err) (trace st) ->
        t = Now w + 1000000000)
  /\ (forall n, In (EvReadFrom n None) (trace st) ->
        exists t d,
          incoming w = Some (t, d) /\ t < Now w + 1000000000
          /\ n = Z.min (len d) 1024
          /\ len (buffer st) = 1024
          /\ firstn (Z.to_nat n) (buffer st) = firstn (Z.to_nat 1024) d)
  /\ (forall c dl t d,
        closed c = false -> rdeadline c = Some dl -> sys_read w = None ->
        incoming w = Some (t, d) -> t < dl -> 1024 < len d ->
        exists b, conn_ReadFrom w c zeroes = Some (inl (b, 1024, remote c))
                  /\ firstn (Z.to_nat 1024) b = firstn (Z.to_nat 1024) d).
Proof.
  intros st. pose proof (Inv_run w address reader sched) as (J & HS & HB).
  pose proof (buffer_facts_run w address reader sched) as Hbuf.
  fold st in J, HS, HB, Hbuf.
  split; [reflexivity|]. split; [reflexivity|].
  split.
  { intros buf Eb. unfold bg_facts in HB. rewrite Eb in HB.
    destruct HB as (_ & -> & _ & _ & Hdl). split; [apply len_zeroes|exact Hdl]. }
  split.
  { intros t err Hin.
    destruct (justified_past _ _ _ _ _ J Hin) as (p & (-> & _) & _). reflexivity. }
  split.
  { intros n Hin.
    destruct (justified_past _ _ _ _ _ J Hin) as (p & (_ & _ & _ & _ & _ & Hd) & _).
    destruct (Hd eq_refl) as (t & d & Hi & Ht & Hn).
    destruct (Hbuf n Hin) as (t' & d' & Hi' & Hf).
    rewrite Hi in Hi'. inversion Hi'; subst t' d'.
    exists t, d. split; [exact Hi|]. split; [exact Ht|]. split; [exact Hn|].
    pose proof (fill_length zeroes d) as Hl. pose proof (fill_bytes zeroes d) as Hb.
    rewrite Hf in Hl, Hb. cbn [fst snd] in Hl, Hb. split.
    - unfold len. rewrite Hl. apply len_zeroes.
    - rewrite Hb. unfold zeroes, make. rewrite repeat_length. reflexivity. }
  intros c dl t d Hc Hdl Hr Hi Ht Hlen.
  unfold conn_ReadFrom. rewrite Hc, Hr, Hi, Hdl.
  apply Z.ltb_lt in Ht. rewrite Ht.
  pose proof (fill_count zeroes d) as Hn. pose proof (fill_bytes zeroes d) as Hb.
  destruct (fill zeroes d) as [b n]. cbn [fst snd] in Hn, Hb.
  rewrite len_zeroes in Hn. unfold udpBufferSize in Hn.
  rewrite Z.min_r in Hn by lia. subst n.
  exists b. split; [reflexivity|]. rewrite Hb.
  unfold zeroes, make. rewrite repeat_length. reflexivity.
Qed.

Lemma reply_buffer_witness :
  let st := run Scenario.verbose "127.0.0.1:9999" Scenario.payload
                Scenario.undisturbed init in
  result st = Some None
  /\ In (EvReadFrom 1024 None) (trace st)
  /\ len (buffer st) = 1024
  /\ firstn (Z.to_nat 1024) (buffer st)
     = firstn (Z.to_nat 1024) (repeat Byte.x41 2000).
Proof.
  intros st.
  assert (Hin : In (EvReadFrom 1024 None) (trace st)) by (vm_compute; tauto).
  split; [reflexivity|]. split; [exact Hin|].
  destruct (reply_buffer_and_deadline Scenario.verbose "127.0.0.1:9999"
              Scenario.payload Scenario.undisturbed)
    as (_ & _ & _ & _ & H & _).
  destruct (H 1024 Hin) as (t & d & Hi & _ & _ & Hl & Hb).
  inversion Hi; subst. split; [exact Hl|exact Hb].
Defined.



(** C9.  [Status], [Enabled], [Enable] and [MaxCurrent] return the error
    "not implemented" on every call.  An error that a call of [client]
    returns is the error with which the caller's own reader ended, handed
    through as it is, or one that the exchange makes itself: a short write,
    the error of the context, an error of address resolution or an error of
    a socket operation; and each of the latter differs from "not
    implemented". *)
Theorem not_implemented_is_no_transport_error :
  (forall (m : Keba.t) (enable : bool) (current : Z),
      snd (Keba.Status m) = Some (errors_New "not implemented")
      /\ snd (Keba.Enabled m) = Some (errors_New "not implemented")
      /\ Keba.Enable m enable = Some (errors_New "not implemented")
      /\ Keba.MaxCurrent m current = Some (errors_New "not implemented"))
  /\ (forall w address reader sched e,
         result (run w address reader sched init) = Some (Some e) ->
         final reader = Some e
         \/ ((e = ErrShortWrite \/ e = ctx_Err (reason w)
              \/ (exists msg, e = AddrError msg) \/ (exists op c, e = OpError op c))
             /\ e <> errors_New "not implemented")).
Proof.
  split; [intros; repeat split|].
  intros w address reader sched e Hr.
  destruct (returned_error _ _ _ _ _ Hr) as [H|[H|[H|[(msg & H)|(op & c & H)]]]];
    [left; exact H| | | |]; right; (split; [auto 6; eauto 8|]); subst e;
    try discriminate.
  destruct (reason w); discriminate.
Qed.

Lemma not_implemented_witness :
  let handed := {| chunks := [Scenario.ping];
                   final := Some (errors_New "not implemented") |} in
  result (run Scenario.unreachable "127.0.0.1:9999" Scenario.payload
              Scenario.undisturbed init)
  = Some (Some (OpError "dial" (Errno 101)))
  /\ OpError "dial" (Errno 101) <> errors_New "not implemented"
  /\ result (run Scenario.loopback "127.0.0.1:9999" handed
                 Scenario.undisturbed init)
     = Some (Some (errors_New "not implemented"))
  /\ final handed = Some (errors_New "not implemented").
Proof.
  intros handed. split; [reflexivity|]. split.
  - destruct (proj2 not_implemented_is_no_transport_error Scenario.unreachable
                "127.0.0.1:9999" Scenario.payload Scenario.undisturbed
                (OpError "dial" (Errno 101)) eq_refl) as [H|(_ & H)];
      [discriminate H|exact H].
  - split; [reflexivity|].
    destruct (proj2 not_implemented_is_no_transport_error Scenario.loopback
                "127.0.0.1:9999" handed Scenario.undisturbed
                (errors_New "not implemented") eq_refl) as [H|(_ & H)];
      [exact H|exfalso; apply H; reflexivity].
Defined.

(** C10.  [Status] returns the fixed status "A" and [Enabled] the fixed
    value [false], each together with its error, for every charger: the
    value does not depend on the charger, a device or the network. *)
Theorem status_and_enabled_are_constants (m : Keba.t) :
  Keba.Status m = ("A", Some (errors_New "not implemented"))
  /\ Keba.Enabled m = (false, Some (errors_New "not implemented")).
Proof. split; reflexivity. Qed.

(** * Beyond the claims *)

(** ** The call and the exchange read in sequence *)

Section SequentialProofs.

Variable w : World.
Variable address : string.
Variable reader : Reader.

Lemma step_bg_no_recv st st' :
  step_bg w reader st = Some st' ->
  count is_recv (trace st') = count is_recv (trace st).
Proof.
  unfold step_bg, set_bg. intros H. step_cases H; reflexivity.
Qed.

Lemma seq_facts_sup coin st st' :
  Inv w address reader st -> seq_facts w address reader st ->
  step_sup w address reader coin st = Some st' -> seq_facts w address reader st'.
Proof.
  intros (J & HS & HB) Hq Hstep.
  unfold step_sup, set_sup in Hstep. unfold sup_facts, live in HS.
  unfold seq_facts in *.
  destruct (sup st) eqn:Es; step_cases Hstep; simpl; try exact I.
  - destruct HS as (-> & _). discriminate.
  - destruct HS as (-> & _). discriminate.
  - destruct HS as (raddr & _ & Hr & Hd & Hc & _).
    eexists. split; [exact Hc|]. unfold client_seq, goroutine. rewrite Hr, Hd.
    reflexivity.
  - destruct HS as (_ & Hz & _). rewrite Hz. discriminate.
  - destruct HS as (_ & Hz & _). rewrite Hz. discriminate.
  - destruct Hq as (c & _ & Hq). intros _.
    unfold bg_facts, running in HB.
    destruct (bg st); try (destruct HB as ((_ & Hch & _) & _); congruence).
    + destruct Hq.
    + apply Hq. reflexivity.
  - destruct HS as (_ & Hz & _). rewrite Hz. discriminate.
  - destruct Hq as (c & _ & Hq). intros _.
    unfold bg_facts, running in HB.
    destruct (bg st); try (destruct HB as ((_ & Hch & _) & _); congruence).
    + destruct Hq.
    + apply Hq. reflexivity.
  - exact Hq.
Qed.

Lemma seq_facts_bg st st' :
  Inv w address reader st -> seq_facts w address reader st ->
  step_bg w reader st = Some st' -> seq_facts w address reader st'.
Proof.
  intros (J & HS & HB) Hq Hstep.
  pose proof (step_bg_no_recv _ _ Hstep) as Hn.
  destruct (step_bg_trace _ _ _ _ Hstep) as (nw & _ & Hs).
  unfold seq_facts in *. rewrite Hs.
  destruct (sup st) eqn:Es; try exact I; try (rewrite Hn; exact Hq).
  clear Hn Hs nw. destruct Hq as (c & Hc & Hq).
  unfold step_bg, set_bg in Hstep. rewrite Hc in Hstep.
  destruct (bg st) as [|rest wr|n|buf|v|] eqn:Eb.
  - destruct Hq.
  - unfold remaining in Hq. destruct rest as [|b rest]; cbn [io_Copy] in Hq.
    + destruct (final reader) as [e|] eqn:F; inversion Hstep; subst; simpl;
        exists c; (split; [reflexivity|]); exact Hq.
    + destruct (len b =? 0).
      * inversion Hstep; subst; simpl. exists c. split; [reflexivity|]. exact Hq.
      * destruct (conn_Write w c _ b) as [m ew]. destruct ew as [e|].
        -- inversion Hstep; subst; simpl. exists c. split; [reflexivity|]. exact Hq.
        -- destruct (len b =? m); inversion Hstep; subst; simpl;
             exists c; (split; [reflexivity|]); exact Hq.
  - unfold remaining, arm_and_receive in Hq.
    destruct (conn_SetReadDeadline w c (Now w + updTimeout)) as [c' [e|]];
      inversion Hstep; subst; simpl; exists c'; (split; [reflexivity|]); exact Hq.
  - unfold remaining, receive in Hq.
    destruct (conn_ReadFrom w c buf) as [[[[b' m] a]|e]|]; [| |discriminate];
      inversion Hstep; subst; simpl; exists c; (split; [first [reflexivity|assumption]|]); exact Hq.
  - destruct (doneChan st); try discriminate. inversion Hstep; subst; simpl.
    exists c. split; [first [reflexivity|assumption]|]. intros v' Hv. inversion Hv; subst.
    symmetry. exact Hq.
  - discriminate.
Qed.

Lemma seq_facts_run sched :
  seq_facts w address reader (run w address reader sched init).
Proof.
  apply run_ind.
  - exact I.
  - intros st a HI Hq. unfold exec, step. destruct a as [coin| |].
    + destruct (step_sup w address reader coin st) eqn:E; eauto using seq_facts_sup.
    + destruct (step_bg w reader st) eqn:E; eauto using seq_facts_bg.
    + unfold seq_facts in *. simpl. destruct (sup st); auto.
Qed.

Lemma early_is_sequential r tr :
  early w address r tr -> client_seq w address reader = Some r.
Proof.
  unfold client_seq.
  intros [(msg & -> & -> & _)|(raddr & errno & -> & -> & -> & _)]; reflexivity.
Qed.

Lemma returned_cases st r :
  sup_facts w address st -> seq_facts w address reader st ->
  sup st = SReturned r ->
  client_seq w address reader = Some r
  \/ (r = Some (ctx_Err (reason w)) /\ done st = true
      /\ In EvLogCancelled (trace st) /\ count is_recv (trace st) = 0%nat).
Proof.
  unfold sup_facts, seq_facts. intros HS Hq Es. rewrite Es in HS, Hq.
  destruct HS as (_ & _ & [(_ & _ & He)|(_ & _ & _ & Hc)]).
  - left. eapply early_is_sequential, He.
  - destruct Hc as [(_ & Hn & _)|(Hl & Hn & _ & -> & Hd)].
    + left. apply Hq, Hn.
    + right. repeat split; assumption.
Qed.

Lemma run_returned_cases sched r :
  let st := run w address reader sched init in
  result st = Some r ->
  client_seq w address reader = Some r
  \/ (r = Some (ctx_Err (reason w)) /\ done st = true
      /\ In EvLogCancelled (trace st) /\ count is_recv (trace st) = 0%nat).
Proof.
  intros st Hr. unfold result in Hr.
  destruct (sup st) eqn:Es; try discriminate. injection Hr as ->.
  destruct (Inv_run w address reader sched) as (_ & HS & _).
  exact (returned_cases st r HS (seq_facts_run sched) Es).
Qed.

(** [io.Copy] when every datagram is written whole. *)
Lemma io_Copy_healthy c rest : forall written,
  closed c = false -> (forall sent b, sys_write w sent b = (len b, None)) ->
  io_Copy w c (final reader) rest written
  = (written + len (List.concat rest), final reader).
Proof.
  induction rest as [|b rest IH]; intros written Hc Hw.
  - simpl. f_equal. unfold len. simpl. lia.
  - cbn [io_Copy]. unfold conn_Write. rewrite Hc, Hw.
    cbn [List.concat]. rewrite len_app.
    destruct (len b =? 0) eqn:E0.
    + rewrite IH by assumption. f_equal. lia.
    + assert (0 < len b) by (unfold len in *; lia).
      replace (0 <? len b) with true by (symmetry; apply Z.ltb_lt; assumption).
      rewrite Z.eqb_refl, IH by assumption. f_equal. lia.
Qed.

(** The exchange read in sequence when the socket calls succeed: the
    outcome is decided by the peer's datagram and the deadline. *)
Lemma client_seq_healthy raddr :
  ResolveUDPAddr w address = inl raddr -> DialUDP w raddr = None ->
  healthy w -> final reader = None ->
  client_seq w address reader
  = Some (match incoming w with
          | Some (t, d) =>
            if t <? Now w + updTimeout then None
            else Some (OpError "read" ErrTimeout)
          | None => Some (OpError "read" ErrTimeout)
          end).
Proof.
  intros Hr Hd (Hw & Hs & Hrd) Hf.
  unfold client_seq, goroutine. rewrite Hr, Hd.
  rewrite io_Copy_healthy by (try reflexivity; assumption).
  unfold after_copy. cbn [snd]. rewrite Hf.
  unfold arm_and_receive, conn_SetReadDeadline. cbn [closed]. rewrite Hs.
  unfold receive, conn_ReadFrom. cbn [closed rdeadline]. rewrite Hrd.
  destruct (incoming w) as [[t d]|]; [|reflexivity].
  destruct (t <? Now w + updTimeout); [|reflexivity].
  destruct (fill (make udpBufferSize) d). reflexivity.
Qed.

(** [io.Copy] when the reader fails after its chunks. *)
Lemma client_seq_reader_error raddr e :
  ResolveUDPAddr w address = inl raddr -> DialUDP w raddr = None ->
  (forall sent b, sys_write w sent b = (len b, None)) -> final reader = Some e ->
  client_seq w address reader = Some (Some e).
Proof.
  intros Hr Hd Hw Hf. unfold client_seq, goroutine. rewrite Hr, Hd.
  rewrite io_Copy_healthy by (try reflexivity; assumption).
  unfold after_copy. cbn [snd]. rewrite Hf. reflexivity.
Qed.

(** [io.Copy] over chunks that the socket takes whole, each at its place. *)
Lemma io_Copy_accepted c fin tail : forall before pre,
  closed c = false ->
  (forall d b t, before = d ++ b :: t -> b <> [] ->
     sys_write w (len (List.concat (pre ++ d))) b = (len b, None)) ->
  io_Copy w c fin (before ++ tail) (len (List.concat pre))
  = io_Copy w c fin tail (len (List.concat (pre ++ before))).
Proof.
  induction before as [|b0 before IH]; intros pre Hc Hw.
  - rewrite app_nil_r. reflexivity.
  - assert (Hrest : forall d b t, before = d ++ b :: t -> b <> [] ->
              sys_write w (len (List.concat ((pre ++ [b0]) ++ d))) b = (len b, None)).
    { intros d b t -> Hb. rewrite <- app_assoc. simpl.
      apply (Hw (b0 :: d) b t); [reflexivity|exact Hb]. }
    replace (pre ++ b0 :: before) with ((pre ++ [b0]) ++ before)
      by (rewrite <- app_assoc; reflexivity).
    rewrite <- (IH (pre ++ [b0]) Hc Hrest).
    cbn [app io_Copy]. unfold bytes in *. rewrite concat_snoc, len_app.
    destruct (len b0 =? 0) eqn:E0.
    + apply Z.eqb_eq in E0. rewrite E0, Z.add_0_r. reflexivity.
    + assert (Hb0 : b0 <> []) by (intros ->; discriminate E0).
      pose proof (Hw [] b0 before eq_refl Hb0) as Hw0.
      rewrite app_nil_r in Hw0. unfold conn_Write. rewrite Hc, Hw0.
      assert (0 < len b0) by (unfold len in *; lia).
      replace (0 <? len b0) with true by (symmetry; apply Z.ltb_lt; assumption).
      rewrite Z.eqb_refl. reflexivity.
Qed.

(** ... and the first datagram that it refuses. *)
Lemma client_seq_refused raddr before b rest errno :
  ResolveUDPAddr w address = inl raddr -> DialUDP w raddr = None ->
  chunks reader = before ++ b :: rest -> b <> [] ->
  (forall d b' t, before = d ++ b' :: t -> b' <> [] ->
     sys_write w (len (List.concat d)) b' = (len b', None)) ->
  snd (sys_write w (len (List.concat before)) b) = Some errno ->
  client_seq w address reader = Some (Some (OpError "write" (Errno errno))).
Proof.
  intros Hr Hd Hch Hb Hw He. unfold client_seq, goroutine. rewrite Hr, Hd, Hch.
  change 0 with (len (List.concat (@nil bytes))).
  rewrite io_Copy_accepted by (try reflexivity; exact Hw).
  cbn [app io_Copy].
  replace (len b =? 0) with false
    by (symmetry; apply Z.eqb_neq; destruct b; [congruence|unfold len; simpl; lia]).
  unfold conn_Write. cbn [closed].
  destruct (sys_write w (len (List.concat before)) b) as [n [e|]];
    simpl in He; [|discriminate].
  injection He as ->. reflexivity.
Qed.

Lemma exec_done a st :
  a <> CancelSignal -> done (exec w address reader st a) = done st.
Proof.
  intros Ha. unfold exec, step. destruct a as [coin| |]; [| |congruence].
  - destruct (step_sup w address reader coin st) eqn:E; [|reflexivity].
    unfold step_sup, set_sup in E. step_cases E; reflexivity.
  - destruct (step_bg w reader st) eqn:E; [|reflexivity].
    unfold step_bg, set_bg in E. step_cases E; reflexivity.
Qed.

Lemma run_done sched : forall st,
  undisturbed_by_cancel sched = true ->
  done (run w address reader sched st) = done st.
Proof.
  induction sched as [|a sched IH]; intros st H; [reflexivity|].
  change (run w address reader (a :: sched) st)
    with (run w address reader sched (exec w address reader st a)).
  destruct a; simpl in H; try discriminate;
    (rewrite IH by exact H); apply exec_done; discriminate.
Qed.

End SequentialProofs.

Lemma undisturbed_app s1 s2 :
  undisturbed_by_cancel (s1 ++ s2)
  = undisturbed_by_cancel s1 && undisturbed_by_cancel s2.
Proof.
  induction s1 as [|a s1 IH]; [reflexivity|]. destruct a; simpl; auto.
Qed.

Lemma undisturbed_repeat a n :
  a <> CancelSignal -> undisturbed_by_cancel (repeat a n) = true.
Proof.
  intros Ha. induction n as [|n IH]; [reflexivity|].
  destruct a; simpl; auto; congruence.
Qed.

Lemma undisturbed_to_the_end reader :
  undisturbed_by_cancel (to_the_end reader) = true.
Proof.
  unfold to_the_end. rewrite !undisturbed_app, !undisturbed_repeat; try discriminate.
  reflexivity.
Qed.

(** ** The outcome of a call and the exchange read in sequence *)

Section Refinement.

Variable w : World.
Variable address : string.
Variable reader : Reader.

(** X1.  Whatever the scheduler does, a value that [client] returns is
    either the outcome of the exchange read in sequence (resolve, dial,
    copy, arm the deadline, receive) or the error of the context, and the
    latter only when the context is done, the cancellation was logged and
    nothing was taken from the channel. *)
Theorem outcome_is_sequential_or_cancelled sched r :
  let st := run w address reader sched init in
  result st = Some r ->
  client_seq w address reader = Some r
  \/ (r = Some (ctx_Err (reason w)) /\ done st = true
      /\ In EvLogCancelled (trace st) /\ count is_recv (trace st) = 0%nat).
Proof.
  intros st Hr. unfold result in Hr.
  destruct (sup st) eqn:Es; try discriminate. injection Hr as ->.
  destruct (Inv_run w address reader sched) as (_ & HS & _).
  pose proof (seq_facts_run w address reader sched) as Hq. fold st in HS, Hq.
  unfold sup_facts in HS. unfold seq_facts in Hq. rewrite Es in HS, Hq.
  destruct HS as (_ & _ & [(_ & _ & He)|(_ & _ & _ & Hc)]).
  - left. eapply early_is_sequential, He.
  - destruct Hc as [(_ & Hn & _)|(Hl & Hn & _ & -> & Hd)].
    + left. apply Hq, Hn.
    + right. repeat split; assumption.
Qed.

(** X3.  A peer that does not answer within [updTimeout] of the moment the
    deadline is armed: when resolve, dial and the socket calls succeed and
    the reader ends without error, a call that returns gives the i/o timeout
    of the receive, or the error of the context if that was done. *)
Theorem silent_peer_times_out sched raddr r :
  ResolveUDPAddr w address = inl raddr -> DialUDP w raddr = None ->
  healthy w -> final reader = None ->
  (forall t d, incoming w = Some (t, d) -> Now w + updTimeout <= t) ->
  let st := run w address reader sched init in
  result st = Some r ->
  r = Some (OpError "read" ErrTimeout)
  \/ (r = Some (ctx_Err (reason w)) /\ done st = true).
Proof.
  intros Hr Hd Hh Hf Hlate st Hres.
  destruct (run_returned_cases w address reader sched r Hres)
    as [H|(H1 & H2 & _)]; [left|right; split; assumption].
  rewrite (client_seq_healthy w address reader raddr Hr Hd Hh Hf) in H.
  injection H as <-.
  destruct (incoming w) as [[t d]|] eqn:Ei; [|reflexivity].
  specialize (Hlate t d eq_refl).
  replace (t <? Now w + updTimeout) with false; [reflexivity|].
  symmetry. apply Z.ltb_ge. exact Hlate.
Qed.

(** X4.  A peer that answers before the deadline, whatever the size of its
    datagram: when resolve, dial and the socket calls succeed and the reader
    delivers its chunks and ends with [io.EOF], a call that returns gives
    nil, or the error of the context if that was done; and when the context
    is never cancelled, a call that is given its turns to the end does
    return nil. *)
Theorem answer_in_time_succeeds sched raddr t d :
  ResolveUDPAddr w address = inl raddr -> DialUDP w raddr = None ->
  healthy w -> final reader = None ->
  incoming w = Some (t, d) -> t < Now w + updTimeout ->
  (forall r, result (run w address reader sched init) = Some r ->
             r = None
             \/ (r = Some (ctx_Err (reason w))
                 /\ done (run w address reader sched init) = true))
  /\ (undisturbed_by_cancel sched = true ->
      result (run w address reader (sched ++ to_the_end reader) init) = Some None).
Proof.
  intros Hr Hd Hh Hf Hi Ht.
  assert (Hseq : client_seq w address reader = Some None).
  { rewrite (client_seq_healthy w address reader raddr Hr Hd Hh Hf), Hi.
    replace (t <? Now w + updTimeout) with true; [reflexivity|].
    symmetry. apply Z.ltb_lt. exact Ht. }
  split.
  - intros r Hres.
    destruct (run_returned_cases w address reader sched r Hres)
      as [H|(H1 & H2 & _)]; [left|right; split; assumption].
    rewrite Hseq in H. injection H as <-. reflexivity.
  - intros Hu. destruct (can_finish w address reader sched) as (r & Hres).
    rewrite Hres. f_equal.
    destruct (run_returned_cases w address reader _ r Hres) as [H|(_ & H & _)].
    + rewrite Hseq in H. injection H as <-. reflexivity.
    + rewrite run_done in H; [discriminate H|].
      rewrite undisturbed_app, Hu. apply undisturbed_to_the_end.
Qed.

(** X5.  An error of the reader is what the caller gets: when resolve and
    dial succeed and the datagrams are written whole, a call whose reader
    ends with an error returns that very error, or the error of the context
    if that was done. *)
Theorem reader_error_is_returned sched raddr e r :
  ResolveUDPAddr w address = inl raddr -> DialUDP w raddr = None ->
  (forall sent b, sys_write w sent b = (len b, None)) -> final reader = Some e ->
  let st := run w address reader sched init in
  result st = Some r ->
  r = Some e \/ (r = Some (ctx_Err (reason w)) /\ done st = true).
Proof.
  intros Hr Hd Hw Hf st Hres.
  destruct (run_returned_cases w address reader sched r Hres)
    as [H|(H1 & H2 & _)]; [left|right; split; assumption].
  rewrite (client_seq_reader_error w address reader raddr e Hr Hd Hw Hf) in H.
  injection H as <-. reflexivity.
Qed.

(** X6.  A datagram that the socket refuses: when resolve and dial
    succeed, the chunks before the chunk [b] are written whole, each at its
    place, and the operating system fails the write of [b] with [errno], a
    call that returns gives the write error with that [errno], or the error
    of the context if that was done.  What comes after [b] in the reader
    does not matter. *)
Theorem failed_write_is_returned sched raddr before b rest errno r :
  ResolveUDPAddr w address = inl raddr -> DialUDP w raddr = None ->
  chunks reader = before ++ b :: rest -> b <> [] ->
  (forall d b' t, before = d ++ b' :: t -> b' <> [] ->
     sys_write w (len (List.concat d)) b' = (len b', None)) ->
  snd (sys_write w (len (List.concat before)) b) = Some errno ->
  let st := run w address reader sched init in
  result st = Some r ->
  r = Some (OpError "write" (Errno errno))
  \/ (r = Some (ctx_Err (reason w)) /\ done st = true).
Proof.
  intros Hr Hd Hch Hb Hw He st Hres.
  destruct (run_returned_cases w address reader sched r Hres)
    as [H|(H1 & H2 & _)]; [left|right; split; assumption].
  rewrite (client_seq_refused w address reader raddr before b rest errno
             Hr Hd Hch Hb Hw He) in H.
  injection H as <-. reflexivity.
Qed.

End Refinement.

Lemma outcome_is_sequential_witness :
  let st := run Scenario.loopback "127.0.0.1:9999" Scenario.payload
                Scenario.undisturbed init in
  result st = Some None
  /\ client_seq Scenario.loopback "127.0.0.1:9999" Scenario.payload = Some None.
Proof.
  intros st. split; [reflexivity|].
  destruct (outcome_is_sequential_or_cancelled Scenario.loopback "127.0.0.1:9999"
              Scenario.payload Scenario.undisturbed None eq_refl)
    as [H|(H & _)]; [exact H | discriminate H].
Defined.

Lemma silent_peer_witness :
  let st := run Faults.silent "127.0.0.1:9999" Scenario.payload
                Scenario.undisturbed init in
  healthy Faults.silent
  /\ result st = Some (Some (OpError "read" ErrTimeout))
  /\ (Some (OpError "read" ErrTimeout) = Some (OpError "read" ErrTimeout)
      \/ (Some (OpError "read" ErrTimeout) = Some (ctx_Err (reason Faults.silent))
          /\ done st = true)).
Proof.
  intros st.
  assert (Hh : healthy Faults.silent) by (repeat split; intros; reflexivity).
  split; [exact Hh|]. split; [reflexivity|].
  apply (silent_peer_times_out Faults.silent "127.0.0.1:9999" Scenario.payload
           Scenario.undisturbed Scenario.peer).
  - reflexivity.
  - reflexivity.
  - exact Hh.
  - reflexivity.
  - intros t d H. discriminate H.
  - reflexivity.
Defined.

Lemma answer_in_time_witness :
  50005000 < Now Scenario.verbose + updTimeout
  /\ result (run Scenario.verbose "127.0.0.1:9999" Scenario.payload
                 (Scenario.undisturbed ++ to_the_end Scenario.payload) init)
     = Some None.
Proof.
  split; [reflexivity|].
  apply (answer_in_time_succeeds Scenario.verbose "127.0.0.1:9999" Scenario.payload
           Scenario.undisturbed Scenario.peer 50005000 (repeat Byte.x41 2000)).
  - reflexivity.
  - reflexivity.
  - repeat split; intros; reflexivity.
  - reflexivity.
  - reflexivity.
  - reflexivity.
  - reflexivity.
Defined.

Lemma reader_error_witness :
  let st := run Faults.silent "127.0.0.1:9999" Faults.broken
                Scenario.undisturbed init in
  final Faults.broken = Some (errors_New "unexpected EOF")
  /\ result st = Some (Some (errors_New "unexpected EOF"))
  /\ (Some (errors_New "unexpected EOF") = Some (errors_New "unexpected EOF")
      \/ (Some (errors_New "unexpected EOF") = Some (ctx_Err (reason Faults.silent))
          /\ done st = true)).
Proof.
  intros st. split; [reflexivity|]. split; [reflexivity|].
  apply (reader_error_is_returned Faults.silent "127.0.0.1:9999" Faults.broken
           Scenario.undisturbed Scenario.peer).
  - reflexivity.
  - reflexivity.
  - intros sent b. reflexivity.
  - reflexivity.
  - reflexivity.
Defined.

Lemma failed_write_witness :
  let st := run Faults.closed_port "127.0.0.1:9999" Faults.twice
                Scenario.undisturbed init in
  sys_write Faults.closed_port 4 Scenario.ping = (0, Some 111)
  /\ result st = Some (Some (OpError "write" (Errno 111)))
  /\ (Some (OpError "write" (Errno 111)) = Some (OpError "write" (Errno 111))
      \/ (Some (OpError "write" (Errno 111)) = Some (ctx_Err (reason Faults.closed_port))
          /\ done st = true)).
Proof.
  intros st. split; [reflexivity|]. split; [reflexivity|].
  apply (failed_write_is_returned Faults.closed_port "127.0.0.1:9999" Faults.twice
           Scenario.undisturbed Scenario.peer [Scenario.ping] Scenario.ping [] 111).
  - reflexivity.
  - reflexivity.
  - reflexivity.
  - discriminate.
  - intros d b' t H _. destruct d as [|x d].
    + injection H as <- _. reflexivity.
    + exfalso. injection H as _ H. destruct d; discriminate H.
  - reflexivity.
  - reflexivity.
Defined.

(** ** Termination of the two goroutines *)

Section Termination.

Variable w : World.
Variable address : string.
Variable reader : Reader.

Lemma exec_other_bg a st :
  Inv w address reader st -> bg st <> BIdle -> a <> Background ->
  bg (exec w address reader st a) = bg st.
Proof.
  intros (_ & HS & _) Hb Ha. unfold exec, step.
  destruct a as [coin| |]; [|congruence|reflexivity].
  destruct (step_sup w address reader coin st) as [st'|] eqn:E; [|reflexivity].
  unfold sup_facts in HS. unfold step_sup, set_sup in E.
  destruct (sup st) eqn:Es; step_cases E; try reflexivity.
  destruct HS as (ra & _ & _ & _ & _ & Hi). contradiction.
Qed.

Lemma fuel_zero_finished st :
  bg st <> BIdle -> (bg_fuel (bg st) <= 0)%nat -> finished st = true.
Proof.
  unfold finished. destruct (bg st); simpl; intros; try lia; congruence.
Qed.

Lemma bg_ends more : forall st,
  Inv w address reader st -> bg st <> BIdle ->
  (bg_fuel (bg st) <= bg_steps more)%nat ->
  finished (run w address reader more st) = true.
Proof.
  induction more as [|a more IH]; intros st HI Hb Hf.
  - apply fuel_zero_finished; assumption.
  - change (run w address reader (a :: more) st)
      with (run w address reader more (exec w address reader st a)).
    destruct a as [coin| |].
    + apply IH.
      * apply Inv_exec, HI.
      * rewrite exec_other_bg by (try discriminate; assumption). exact Hb.
      * rewrite exec_other_bg by (try discriminate; assumption). exact Hf.
    + destruct (bg st) eqn:Eb; try congruence.
      5: { apply IH.
           - apply Inv_exec, HI.
           - unfold exec, step, step_bg. rewrite Eb. rewrite Eb. discriminate.
           - unfold exec, step, step_bg. rewrite Eb. rewrite Eb. simpl. lia. }
      all: destruct (bg_progress w address reader st HI) as (st' & E & Hlt & Hn);
        try (rewrite Eb; discriminate).
      all: assert (Hex : exec w address reader st Background = st')
        by (unfold exec, step; rewrite E; reflexivity).
      all: rewrite Hex; apply IH;
        [ rewrite <- Hex; apply Inv_exec, HI | exact Hn
        | rewrite Eb in Hlt; simpl in Hf, Hlt; lia ].
    + apply IH.
      * apply Inv_exec, HI.
      * rewrite exec_other_bg by (try discriminate; assumption). exact Hb.
      * rewrite exec_other_bg by (try discriminate; assumption). exact Hf.
Qed.

Lemma copied_fuel st n err :
  Inv w address reader st -> In (EvCopied n err) (trace st) ->
  bg st <> BIdle /\ (bg_fuel (bg st) <= 3)%nat.
Proof.
  intros (_ & _ & HB) Hin. unfold bg_facts, running in HB.
  destruct (bg st) eqn:Eb; simpl; try (split; [discriminate|lia]); exfalso.
  - destruct HB as (Hz & _). pose proof (count_In is_bg _ _ Hin eq_refl). lia.
  - destruct HB as (_ & Hz & _). pose proof (count_In is_copied _ _ Hin eq_refl). lia.
Qed.

Lemma started_stage st :
  Inv w address reader st -> bg st <> BIdle -> (3 <= stage (sup st))%nat.
Proof.
  intros (_ & HS & _) Hb. unfold sup_facts in HS.
  destruct (sup st); simpl; try lia; exfalso; apply Hb.
  - destruct HS as (_ & _ & H). exact H.
  - destruct HS as (_ & _ & _ & H). exact H.
  - destruct HS as (ra & _ & _ & _ & _ & H). exact H.
Qed.

Lemma exec_done_true a st :
  done st = true -> done (exec w address reader st a) = true.
Proof.
  intros Hd. destruct a as [coin| |]; [| |reflexivity].
  - rewrite exec_done by discriminate. exact Hd.
  - rewrite exec_done by discriminate. exact Hd.
Qed.

Lemma done_turn_advances coin st :
  done st = true -> (stage (sup st) < 5)%nat ->
  (stage (sup st) < stage (sup (exec w address reader st (Supervisor coin))))%nat.
Proof.
  intros Hd Hs. unfold exec, step.
  destruct (step_sup w address reader coin st) as [st'|] eqn:E;
    unfold step_sup, set_sup in E; rewrite ?Hd in E;
    destruct (sup st) eqn:Es; step_cases E; simpl in *; lia.
Qed.

Lemma returns_once_done more : forall st,
  done st = true -> (5 - stage (sup st) <= sup_steps more)%nat ->
  exists r, result (run w address reader more st) = Some r.
Proof.
  induction more as [|a more IH]; intros st Hd Hs.
  - cbn [sup_steps] in Hs. unfold run, result. simpl.
    destruct (sup st); simpl in Hs; try lia. eauto.
  - change (run w address reader (a :: more) st)
      with (run w address reader more (exec w address reader st a)).
    apply IH; [apply exec_done_true, Hd|].
    destruct (stage_exec w address reader a st) as (Hle & _).
    destruct a as [coin| |]; cbn [sup_steps] in Hs; try lia.
    destruct (Nat.lt_ge_cases (stage (sup st)) 5) as [Hlt|Hge]; [|lia].
    pose proof (done_turn_advances coin st Hd Hlt). lia.
Qed.

(** X7.  Once [io.Copy] has returned, the background unit is never left
    behind: it runs to its end under every schedule that gives it three
    more turns, whatever else happens in between, also after the call has
    been cancelled, has closed the socket and has returned.  The receive
    cannot wait for ever, and the send finds the slot of the channel free. *)
Theorem background_unit_always_ends sched more n err :
  let st := run w address reader sched init in
  In (EvCopied n err) (trace st) ->
  (3 <= bg_steps more)%nat ->
  finished (run w address reader more st) = true.
Proof.
  intros st Hin Hn.
  destruct (copied_fuel st n err (Inv_run w address reader sched) Hin) as (Hb & Hf).
  apply bg_ends; [apply Inv_run | exact Hb | lia].
Qed.

(** X2.  When the context is never cancelled and [io.Copy] has returned,
    the call does return: three more turns of the background unit and two
    of the call bring a value back, and under every interleaving before
    them this value is the outcome of the exchange read in sequence. *)
Theorem outcome_without_cancellation sched n err :
  undisturbed_by_cancel sched = true ->
  In (EvCopied n err) (trace (run w address reader sched init)) ->
  exists r,
    result (run w address reader (sched ++ after_the_copy) init) = Some r
    /\ client_seq w address reader = Some r.
Proof.
  intros Hu Hin. set (st := run w address reader sched init) in *.
  pose proof (Inv_run w address reader sched) as HI. fold st in HI.
  destruct (copied_fuel st n err HI Hin) as (Hb & Hf).
  assert (Hfin : finished (run w address reader (repeat Background 3) st) = true)
    by (apply bg_ends; [exact HI | exact Hb | simpl; lia]).
  assert (Hst : (3 <= stage (sup (run w address reader (repeat Background 3) st)))%nat)
    by (rewrite background_keeps_sup; apply started_stage; assumption).
  destruct (finish_call w address reader _ (Inv_run_from w address reader _ st HI)
              Hfin Hst) as (r & Hr).
  exists r. unfold after_the_copy. rewrite !run_app. fold st.
  split; [exact Hr|].
  assert (Hr' : result (run w address reader (sched ++ after_the_copy) init) = Some r)
    by (unfold after_the_copy; rewrite !run_app; exact Hr).
  destruct (run_returned_cases w address reader _ r Hr') as [H|(_ & H & _)];
    [exact H|].
  rewrite run_done in H; [discriminate H|].
  unfold after_the_copy.
  rewrite !undisturbed_app, Hu, !undisturbed_repeat by discriminate. reflexivity.
Qed.

(** X8.  Cancellation is always answered: after the context is done, the
    call has returned as soon as it has had five turns of its own, whatever
    the background unit and the peer do; the [select] never waits for the
    channel then. *)
Theorem cancelled_call_returns before more :
  (5 <= sup_steps more)%nat ->
  exists r,
    result (run w address reader (before ++ CancelSignal :: more) init) = Some r.
Proof.
  intros Hn. rewrite run_app.
  change (run w address reader (CancelSignal :: more)
            (run w address reader before init))
    with (run w address reader more
            (exec w address reader (run w address reader before init) CancelSignal)).
  apply returns_once_done; [reflexivity|]. lia.
Qed.

End Termination.

Lemma background_unit_ends_witness :
  let st := run Scenario.loopback "127.0.0.1:9999" Scenario.payload
                Faults.cancelled_after_copy init in
  result st = Some (Some (ctx_Err Canceled)) /\ finished st = false
  /\ finished (run Scenario.loopback "127.0.0.1:9999" Scenario.payload
                   [Background; Supervisor true; Background; Background] st) = true.
Proof.
  intros st. split; [reflexivity|]. split; [reflexivity|].
  apply (background_unit_always_ends Scenario.loopback "127.0.0.1:9999"
           Scenario.payload Faults.cancelled_after_copy _ 4 None).
  - vm_compute. auto 20.
  - simpl. lia.
Defined.

Lemma outcome_without_cancellation_witness :
  let sched := [Supervisor true; Supervisor true; Supervisor true;
                Background; Background] in
  undisturbed_by_cancel sched = true
  /\ result (run Faults.silent "127.0.0.1:9999" Scenario.payload
                 (sched ++ after_the_copy) init)
     = Some (Some (OpError "read" ErrTimeout)).
Proof.
  intros sched. split; [reflexivity|].
  destruct (outcome_without_cancellation Faults.silent "127.0.0.1:9999"
              Scenario.payload sched 4 None eq_refl) as (r & Hr & Hc).
  - vm_compute. auto 20.
  - rewrite Hr, <- Hc. reflexivity.
Defined.

Lemma cancelled_call_returns_witness :
  (5 <= sup_steps Faults.after_cancel)%nat
  /\ exists r,
       result (run Faults.silent "127.0.0.1:9999" Scenario.payload
                 (Faults.before_cancel ++ CancelSignal :: Faults.after_cancel) init)
       = Some r.
Proof.
  split; [simpl; lia|].
  apply (cancelled_call_returns Faults.silent "127.0.0.1:9999" Scenario.payload).
  simpl. lia.
Defined.

(** ** What is written and what the log says *)

Section Written.

Variable w : World.
Variable address : string.
Variable reader : Reader.

Lemma write_count_bg tr : (count is_write tr <= count is_bg tr)%nat.
Proof. induction tr as [|e tr IH]; simpl; [lia|]. destruct e; simpl; lia. Qed.

Lemma written_prefix_run sched :
  copy_facts reader (run w address reader sched init)
  /\ written_prefix reader (run w address reader sched init).
Proof.
  apply run_ind.
  - split; [apply (copy_facts_run w address reader [])|].
    exists (List.concat (chunks reader)). reflexivity.
  - intros st a HI (Hc & Hp). unfold exec, step. destruct a as [coin| |].
    + destruct (step_sup w address reader coin st) as [st'|] eqn:E; [|split; assumption].
      split; [eapply copy_facts_sup; eassumption|].
      destruct (step_sup_trace _ _ _ _ _ _ E) as (nw & Ht & Hz).
      unfold written_prefix in *. rewrite Ht, payload_written_app.
      rewrite (payload_written_none nw), app_nil_r; [exact Hp|].
      pose proof (write_count_bg nw). lia.
    + destruct (step_bg w reader st) as [st'|] eqn:E; [|split; assumption].
      split; [eapply copy_facts_bg; eassumption|].
      destruct Hc as (Hc & _). destruct Hp as (rest & Hp).
      unfold written_prefix. unfold step_bg, set_bg in E.
      destruct (bg st) as [|todo wr|n|buf|v|] eqn:Eb;
        [discriminate| | | | |destruct (conn st); discriminate].
      2-4: step_cases E; simpl; exists rest; exact Hp.
      destruct Hc as (sent & Hch & _ & Hpw).
      assert (Hsplit : forall b todo' n,
                todo = b :: todo' ->
                exists rest',
                  List.concat (chunks reader)
                  = (payload_written (trace st) ++ firstn (Z.to_nat n) b) ++ rest').
      { intros b todo' n ->. exists (skipn (Z.to_nat n) b ++ List.concat todo').
        rewrite Hch, Hpw, concat_app. cbn [List.concat].
        rewrite <- (firstn_skipn (Z.to_nat n) b) at 1.
        rewrite <- !app_assoc. reflexivity. }
      step_cases E; simpl; try (exists rest; exact Hp); eapply Hsplit; reflexivity.
    + split; assumption.
Qed.

(** X9.  At every moment of every run, the bytes that have been put on the
    socket are a prefix of the reader's content: nothing is sent twice, out
    of order or made up, also when a write is short or fails. *)
Theorem written_is_prefix_of_payload sched :
  exists rest,
    List.concat (chunks reader)
    = payload_written (trace (run w address reader sched init)) ++ rest.
Proof.
  destruct (written_prefix_run sched) as (_ & rest & H).
  exists rest. exact H.
Qed.

(** X10.  The trace line with the count of bytes sent is written only after
    the whole content of the reader has been put on the socket, and the
    count it shows is the length of that content. *)
Theorem sent_count_logged_is_payload_length sched n :
  let st := run w address reader sched init in
  In (EvLogWritten n) (trace st) ->
  n = len (List.concat (chunks reader))
  /\ payload_written (trace st) = List.concat (chunks reader)
  /\ final reader = None.
Proof.
  intros st Hin.
  destruct (Inv_run w address reader sched) as (J & _).
  destruct (justified_past _ _ _ _ _ J Hin) as (past & (Hc & _) & _ & Hincl).
  destruct (copy_facts_run w address reader sched) as (_ & _ & _ & H).
  destruct (H n (Hincl _ Hc)) as (Hf & Hn & Hp). repeat split; assumption.
Qed.

End Written.

Lemma written_prefix_witness :
  let st := run Faults.closed_port "127.0.0.1:9999" Faults.twice
                Scenario.undisturbed init in
  payload_written (trace st) = Scenario.ping
  /\ exists rest,
       List.concat (chunks Faults.twice) = payload_written (trace st) ++ rest.
Proof.
  intros st. split; [reflexivity|].
  apply (written_is_prefix_of_payload Faults.closed_port "127.0.0.1:9999"
           Faults.twice Scenario.undisturbed).
Defined.

Lemma sent_count_logged_witness :
  let st := run Scenario.loopback "127.0.0.1:9999" Scenario.payload
                Scenario.undisturbed init in
  In (EvLogWritten 4) (trace st)
  /\ payload_written (trace st) = Scenario.ping.
Proof.
  intros st.
  assert (Hin : In (EvLogWritten 4) (trace st)) by (vm_compute; auto 20).
  split; [exact Hin|].
  destruct (sent_count_logged_is_payload_length Scenario.loopback "127.0.0.1:9999"
              Scenario.payload Scenario.undisturbed 4 Hin) as (_ & H & _).
  exact H.
Defined.

(** ** Type names in the configuration *)

Lemma mapBytes_no_upper s :
  strings.hasUpper s = false -> strings.mapBytes strings.lowerByte s = s.
Proof.
  induction s as [|c s IH]; simpl; [reflexivity|].
  intros H. apply orb_false_iff in H. destruct H as (Hc & Hs).
  unfold strings.lowerByte at 1. rewrite Hc, IH by exact Hs. reflexivity.
Qed.

Lemma ToLower_ascii unicodeLower s :
  strings.isASCII s = true ->
  strings.ToLower unicodeLower s = strings.mapBytes strings.lowerByte s.
Proof.
  intros H. unfold strings.ToLower. rewrite H.
  destruct (strings.hasUpper s) eqn:E; [reflexivity|].
  symmetry. apply mapBytes_no_upper, E.
Qed.

Section ChargerTypes.

Variable Other : Type.
Variable Foreign : Type.
Variable unicodeLower : string -> string.
Variable DecodeOther : Logger -> Other -> option string.
Variable NewConfigurableFromConfig : Logger -> Other -> option (charger.Charger Foreign).
Variable NewWallbeFromConfig : Logger -> Other -> option (charger.Charger Foreign).
Variable NewPhoenixFromConfig : Logger -> Other -> option (charger.Charger Foreign).
Variable NewNRGKickFromConfig : Logger -> Other -> option (charger.Charger Foreign).
Variable NewGoEFromConfig : Logger -> Other -> option (charger.Charger Foreign).
Variable NewEVSEWifiFromConfig : Logger -> Other -> option (charger.Charger Foreign).
Variable NewSimpleEVSEFromConfig : Logger -> Other -> option (charger.Charger Foreign).

(** X11.  The type of a charger is read without regard to the case of its
    ASCII letters: two names of ASCII bytes that differ only there reach the
    same constructor with the same arguments, or are both refused. *)
Theorem charger_type_ignores_ascii_case log typ typ' other :
  strings.isASCII typ = true -> strings.isASCII typ' = true ->
  strings.mapBytes strings.lowerByte typ = strings.mapBytes strings.lowerByte typ' ->
  charger.NewFromConfig Other Foreign unicodeLower DecodeOther
    NewConfigurableFromConfig NewWallbeFromConfig NewPhoenixFromConfig
    NewNRGKickFromConfig NewGoEFromConfig NewEVSEWifiFromConfig
    NewSimpleEVSEFromConfig log typ other
  = charger.NewFromConfig Other Foreign unicodeLower DecodeOther
      NewConfigurableFromConfig NewWallbeFromConfig NewPhoenixFromConfig
      NewNRGKickFromConfig NewGoEFromConfig NewEVSEWifiFromConfig
      NewSimpleEVSEFromConfig log typ' other.
Proof.
  intros Ha Ha' Heq. unfold charger.NewFromConfig.
  rewrite (ToLower_ascii unicodeLower typ Ha), (ToLower_ascii unicodeLower typ' Ha'), Heq.
  reflexivity.
Qed.

(** X12.  The type [keba], in any case of its letters, makes the Keba
    charger of the decoded [URI], whatever the other constructors are: its
    logger is the one named [keba], not the logger that was passed, and
    when the settings cannot be decoded no charger is made. *)
Theorem keba_from_config log typ other :
  strings.isASCII typ = true ->
  strings.mapBytes strings.lowerByte typ = "keba" ->
  charger.NewFromConfig Other Foreign unicodeLower DecodeOther
    NewConfigurableFromConfig NewWallbeFromConfig NewPhoenixFromConfig
    NewNRGKickFromConfig NewGoEFromConfig NewEVSEWifiFromConfig
    NewSimpleEVSEFromConfig log typ other
  = option_map
      (fun uri => charger.KebaCharger Foreign {| Keba.log := "keba"; Keba.conn := uri |})
      (DecodeOther log other).
Proof.
  intros Ha Hk. unfold charger.NewFromConfig.
  rewrite (ToLower_ascii unicodeLower typ Ha), Hk.
  cbn [one_of existsb String.eqb Ascii.eqb Bool.eqb orb andb].
  unfold charger.NewKebaFromConfig, Keba.NewKeba.
  destruct (DecodeOther log other); reflexivity.
Qed.

End ChargerTypes.

(** A configuration in which only the Keba charger can be made. *)
Lemma charger_type_witness :
  charger.NewFromConfig unit unit (fun s => s) (fun _ _ => Some "192.168.0.5:7090")
    (fun _ _ => None) (fun _ _ => None) (fun _ _ => None) (fun _ _ => None)
    (fun _ _ => None) (fun _ _ => None) (fun _ _ => None) "main" "Go-E" tt
  = charger.NewFromConfig unit unit (fun s => s) (fun _ _ => Some "192.168.0.5:7090")
      (fun _ _ => None) (fun _ _ => None) (fun _ _ => None) (fun _ _ => None)
      (fun _ _ => None) (fun _ _ => None) (fun _ _ => None) "main" "GO-e" tt.
Proof.
  apply (charger_type_ignores_ascii_case unit unit); reflexivity.
Defined.

Lemma keba_from_config_witness :
  charger.NewFromConfig unit unit (fun s => s) (fun _ _ => Some "192.168.0.5:7090")
    (fun _ _ => None) (fun _ _ => None) (fun _ _ => None) (fun _ _ => None)
    (fun _ _ => None) (fun _ _ => None) (fun _ _ => None) "main" "KeBa" tt
  = Some (charger.KebaCharger unit
            {| Keba.log := "keba"; Keba.conn := "192.168.0.5:7090" |}).
Proof.
  apply (keba_from_config unit unit); reflexivity.
Defined.

Section VehicleTypes.

Variable Other : Type.
Variable Vehicle : Type.
Variable unicodeLower : string -> string.
Variable NewConfigurableFromConfig : Logger -> Other -> option Vehicle.
Variable NewAudiFromConfig : Logger -> Other -> option Vehicle.
Variable NewBMWFromConfig : Logger -> Other -> option Vehicle.
Variable NewTeslaFromConfig : Logger -> Other -> option Vehicle.
Variable NewNissanFromConfig : Logger -> Other -> option Vehicle.
Variable NewRenaultFromConfig : Logger -> Other -> option Vehicle.

(** X13.  The type of a vehicle is read without regard to the case of its
    ASCII letters. *)
Theorem vehicle_type_ignores_ascii_case log typ typ' other :
  strings.isASCII typ = true -> strings.isASCII typ' = true ->
  strings.mapBytes strings.lowerByte typ = strings.mapBytes strings.lowerByte typ' ->
  vehicle.NewFromConfig Other Vehicle unicodeLower
    NewConfigurableFromConfig NewAudiFromConfig NewBMWFromConfig
    NewTeslaFromConfig NewNissanFromConfig NewRenaultFromConfig log typ other
  = vehicle.NewFromConfig Other Vehicle unicodeLower
      NewConfigurableFromConfig NewAudiFromConfig NewBMWFromConfig
      NewTeslaFromConfig NewNissanFromConfig NewRenaultFromConfig log typ' other.
Proof.
  intros Ha Ha' Heq. unfold vehicle.NewFromConfig.
  rewrite (ToLower_ascii unicodeLower typ Ha), (ToLower_ascii unicodeLower typ' Ha'), Heq.
  reflexivity.
Qed.

End VehicleTypes.

Lemma vehicle_type_witness :
  vehicle.NewFromConfig unit string (fun s => s)
    (fun _ _ => None) (fun _ _ => None) (fun _ _ => None)
    (fun _ _ => Some "tesla") (fun _ _ => None) (fun _ _ => None) "main" "Model S" tt
  = vehicle.NewFromConfig unit string (fun s => s)
      (fun _ _ => None) (fun _ _ => None) (fun _ _ => None)
      (fun _ _ => Some "tesla") (fun _ _ => None) (fun _ _ => None) "main" "MODEL s" tt.
Proof.
  apply (vehicle_type_ignores_ascii_case unit string); reflexivity.
Defined.
